(** * MagnetronSolver: solenoid current and electron trajectory

    A shallow embedding of [main.py], in three models of its numpy
    [float64] arithmetic.

    - Exact: a float is a real number of [Stdlib.Reals] and every
      operation is the exact one.  It carries the statements that do
      not depend on rounding: formulas, counts, the order of events,
      what the plots show.
    - Rounded: every operation returns a rounding [rnd] of the exact
      result, cosine, sine and pi are those of the runtime; each
      theorem states what it assumes of them (rounding keeps the order,
      is exact on zero, is off by a bounded error, ...).  It carries
      the statements on order, sign, zero divisors and closeness.
    - Binary64: the calculator on primitive floats, evaluated by the
      kernel.  It carries the concrete runs that show where an exact
      statement fails on doubles. *)

From Stdlib Require Import Floats Reals Lra Lia String List Arith ZArith QArith Qreals.

Set Warnings "-inexact-float".
Import ListNotations.
Local Open Scope R_scope.

(** ** Configuration *)

(** The six attributes stored by [MagnetronSolver.__init__]. *)
Record MagnetronSolver : Type := mkSolver {
  D  : R;   (* solenoid diameter, m *)
  n  : R;   (* turns per unit length, 1/m *)
  Ra : R;   (* anode radius, m *)
  Rk : R;   (* cathode radius, m *)
  U1 : R;   (* lower voltage bound, V *)
  U2 : R    (* upper voltage bound, V *)
}.

(** ** Guarded arithmetic

    A division whose divisor is zero stops the guarded evaluation and
    reports the place of the division in the source.  (numpy itself
    warns and goes on with an infinity or a NaN.) *)

Inductive div_site : Type :=
| radius_halving      (* (Ra - Rk) / 2 *)
| charge_quotient     (* 2 * U * m_e / e *)
| orbit_radius        (* sqrt (...) / r *)
| winding_product.    (* B / (mu_0 * n) *)

Inductive fault : Type :=
| ZeroDivision (site : div_site).

Definition checked (A : Type) : Type := (fault + A)%type.

Definition ret {A : Type} (a : A) : checked A := inr a.

Definition bind {A B : Type} (m : checked A) (k : A -> checked B) : checked B :=
  match m with
  | inl f => inl f
  | inr a => k a
  end.

Declare Scope checked_scope.
Delimit Scope checked_scope with checked.
Notation "x <- m ;; k" := (bind m (fun x => k))
  (at level 61, m at next level, right associativity) : checked_scope.

Definition gdiv (site : div_site) (x y : R) : checked R :=
  if Req_dec_T y 0 then inl (ZeroDivision site) else inr (x / y).

(** ** Runs with output

    A run emits events in order (a line on standard output, a figure
    shown) and ends with a value or with an uncaught exception. *)

Inductive artist : Type :=
| Line (xs ys : list R)
| Circle (cx cy radius : R)
| FillBetween (xs ys : list R) (level : R) (where_ : list bool).

Record figure : Type := mkFigure {
  fig_title : string;
  fig_xlabel : string;
  fig_ylabel : string;
  fig_artists : list artist
}.

Inductive event : Type :=
| Print (line : string)
| Show (fig : figure).

Inductive exn : Type :=
| ValueError.

Definition io (A : Type) : Type := (list event * (exn + A))%type.

Definition io_ret {A : Type} (a : A) : io A := ([], inr a).

Definition io_bind {A B : Type} (m : io A) (k : A -> io B) : io B :=
  match m with
  | (out, inl x) => (out, inl x)
  | (out, inr a) => let '(out', b) := k a in (out ++ out', b)
  end.

Declare Scope io_scope.
Delimit Scope io_scope with io.
Notation "x <- m ;; k" := (io_bind m (fun x => k))
  (at level 61, m at next level, right associativity) : io_scope.

Definition print (line : string) : io unit := ([Print line], inr tt).
Definition show (fig : figure) : io unit := ([Show fig], inr tt).
Definition raise {A : Type} (x : exn) : io A := ([], inl x).

(** The lines written to standard output by a run. *)
Fixpoint stdout_of (out : list event) : list string :=
  match out with
  | [] => []
  | Print line :: rest => line :: stdout_of rest
  | Show _ :: rest => stdout_of rest
  end.

Definition stdout {A : Type} (m : io A) : list string := stdout_of (fst m).

(** Python's [max] on a list: [ValueError] on the empty one. *)
Definition py_max (l : list R) : io R :=
  match l with
  | [] => raise ValueError
  | a :: rest => io_ret (fold_left Rmax rest a)
  end.

Definition Rle_bool (x y : R) : bool := if Rle_dec x y then true else false.
Definition Rge_bool (x y : R) : bool := if Rge_dec x y then true else false.

(** ** numpy.linspace

    [np.linspace start stop num] with the default [endpoint=True]:
    [num] samples, the i-th being [i * step + start] with
    [step = (stop - start) / (num - 1)], the last one overwritten by
    [stop]; a single sample is [start]; no sample for [num = 0].  The
    count is a [nat]: numpy rejects a negative count with [ValueError]
    before it produces anything. *)
Definition linspace (start stop : R) (num : nat) : list R :=
  match num with
  | O => []
  | S O => [start]
  | S div =>
      let step := (stop - start) / INR div in
      map (fun i => INR i * step + start) (seq 0 div) ++ [stop]
  end.

Section Solver.

(** [scipy.constants]: elementary charge, electron mass and vacuum
    permeability.  Their values depend on the CODATA release the
    installed scipy ships, so they are parameters. *)
Variables e m_e mu_0 : R.

(** *** calculate_solenoid_current *)

Definition calculate_solenoid_current (self : MagnetronSolver) (U : R) : R :=
  let r := (Ra self - Rk self) / 2 in
  let B := sqrt (2 * U * m_e / e) / r in
  let Ic := B / (mu_0 * n self) in
  Ic.

(** The same statements, every division guarded. *)
Definition calculate_solenoid_current_guarded
    (self : MagnetronSolver) (U : R) : checked R :=
  (r <- gdiv radius_halving (Ra self - Rk self) 2 ;;
   q <- gdiv charge_quotient (2 * U * m_e) e ;;
   B <- gdiv orbit_radius (sqrt q) r ;;
   Ic <- gdiv winding_product B (mu_0 * n self) ;;
   ret Ic)%checked.

(** The reference of the specification, in its words: orbit radius,
    flux density for that radius, current for that flux density. *)
Definition spec_orbit_radius (self : MagnetronSolver) : R :=
  (Ra self - Rk self) / 2.

Definition spec_flux_density (self : MagnetronSolver) (U : R) : R :=
  sqrt (2 * U * m_e / e) / spec_orbit_radius self.

Definition spec_solenoid_current (self : MagnetronSolver) (U : R) : R :=
  spec_flux_density self U / (mu_0 * n self).

(** *** electron_trajectory *)

Definition num_points_default : nat := 1000.

Definition electron_trajectory
    (self : MagnetronSolver) (U Ic : R) (num_points : nat)
    : list R * list R :=
  let B := mu_0 * n self * Ic in
  let r := (Ra self - Rk self) / 2 in
  let theta := linspace 0 (2 * PI) num_points in
  let x := map (fun t => (Rk self + r) * cos t) theta in
  let y := map (fun t => (Rk self + r) * sin t) theta in
  (x, y).

(** The (x, y) pairs of a trajectory, in order. *)
Definition trajectory_points
    (self : MagnetronSolver) (U Ic : R) (num_points : nat) : list (R * R) :=
  let '(x, y) := electron_trajectory self U Ic num_points in
  combine x y.

(** *** Rendering

    matplotlib is an external collaborator: a figure is the data handed
    to it, and showing a figure is an event of the run.  Python's float
    formatting is part of the runtime: [str_float] is the text of
    [{U}] in an f-string and [format_fixed d] the text of [{Ic:.df}]. *)
Variable str_float : R -> string.
Variable format_fixed : nat -> R -> string.

Definition plot_ic_vs_u (self : MagnetronSolver) (num_points : nat) : io unit :=
  let U_values := linspace (U1 self) (U2 self) num_points in
  let Ic_values := map (calculate_solenoid_current self) U_values in
  (top <- py_max Ic_values ;;
   show {| fig_title := "Зависимость тока соленоида от напряжения";
           fig_xlabel := "Напряжение U (В)";
           fig_ylabel := "Ток соленоида Ic (А)";
           fig_artists :=
             [ Line U_values Ic_values;
               FillBetween U_values Ic_values top
                 (map (fun u => Rge_bool u (U1 self) && Rle_bool u (U2 self))%bool
                      U_values) ] |})%io.

Definition plot_trajectory (self : MagnetronSolver) (U Ic : R) : io unit :=
  let '(x, y) := electron_trajectory self U Ic num_points_default in
  show {| fig_title := ("Траектория электрона при U=" ++ str_float U
                          ++ " В, Ic=" ++ format_fixed 2 Ic ++ " А")%string;
          fig_xlabel := "x (м)";
          fig_ylabel := "y (м)";
          fig_artists :=
            [ Line x y;
              Circle 0 0 (Rk self);
              Circle 0 0 (Ra self) ] |}.

(** *** The entry point *)

Definition main : io unit :=
  let D := 0.1 in
  let n := 1000 in
  let Ra := 0.03 in
  let Rk := 0.01 in
  let U1 := 100 in
  let U2 := 1000 in
  let solver := mkSolver D n Ra Rk U1 U2 in
  let U := (U1 + U2) / 2 in
  let Ic := calculate_solenoid_current solver U in
  (_ <- print ("Ток соленоида для U=" ++ str_float U ++ " В: "
                 ++ format_fixed 4 Ic ++ " А")%string ;;
   _ <- plot_trajectory solver U Ic ;;
   plot_ic_vs_u solver 100)%io.

End Solver.

(** ** Geometry of the generated curve *)

(** The point at angle [t] on the generated curve. *)
Definition point_at (self : MagnetronSolver) (t : R) : R * R :=
  ((Rk self + (Ra self - Rk self) / 2) * cos t,
   (Rk self + (Ra self - Rk self) / 2) * sin t).

(** [p] lies on the circle of centre (cx, cy) and radius [rad]. *)
Definition on_circle (cx cy rad : R) (p : R * R) : Prop :=
  (fst p - cx)² + (snd p - cy)² = rad².

(** The circle the source comments describe: radius r = (Ra - Rk)/2,
    centre (cx, cy) at distance Rk + r from the origin, every point of
    the list on it. *)
Definition on_orbit_circle (self : MagnetronSolver) (cx cy : R) (pts : list (R * R)) : Prop :=
  let r := (Ra self - Rk self) / 2 in
  cx² + cy² = (Rk self + r)² /\ Forall (on_circle cx cy r) pts.

(** ** Closed instances

    The values exported by scipy 1.4 to 1.14 (CODATA 2018), and the
    solver built by the entry point. *)
Module CODATA2018.
Definition e : R := 1.602176634e-19.
Definition m_e : R := 9.1093837015e-31.
Definition mu_0 : R := 1.25663706212e-6.
End CODATA2018.

Definition example_solver : MagnetronSolver :=
  mkSolver 0.1 1000 0.03 0.01 100 1000.

(** The same solver with anode and cathode radius exchanged. *)
Definition swapped_solver : MagnetronSolver :=
  mkSolver 0.1 1000 0.01 0.03 100 1000.

(** The same solver with the cathode as wide as the anode. *)
Definition equal_radii_solver : MagnetronSolver :=
  mkSolver 0.1 1000 0.03 0.03 100 1000.

Definition doubled_winding_solver : MagnetronSolver :=
  mkSolver 0.1 2000 0.03 0.01 100 1000.


(** The line the entry point is to print: the report text around the
    midpoint voltage and the current at it, the current with 4 decimals. *)
Definition report_line (e m_e mu_0 : R)
    (str_float : R -> string) (format_fixed : nat -> R -> string) : string :=
  ("Ток соленоида для U=" ++ str_float ((100 + 1000) / 2) ++ " В: "
     ++ format_fixed 4%nat
          (calculate_solenoid_current e m_e mu_0 example_solver ((100 + 1000) / 2))
     ++ " А")%string.

(** ** Binary64 evaluation

    The statements of [calculate_solenoid_current] on IEEE 754 binary64
    numbers, as numpy evaluates them, with the CODATA 2018 constants. *)
Module Float64.
Local Open Scope float_scope.

Record solver64 : Type := mkSolver64 {
  D64 : float; n64 : float; Ra64 : float; Rk64 : float; U1_64 : float; U2_64 : float
}.

Definition e64 : float := 1.602176634e-19.
Definition m_e64 : float := 9.1093837015e-31.
Definition mu_0_64 : float := 1.25663706212e-6.

Definition calculate_solenoid_current_f64 (self : solver64) (U : float) : float :=
  let r := (Ra64 self - Rk64 self) / 2 in
  let B := PrimFloat.sqrt (2 * U * m_e64 / e64) / r in
  let Ic := B / (mu_0_64 * n64 self) in
  Ic.

Definition example_solver64 : solver64 := mkSolver64 0.1 1000 0.03 0.01 100 1000.
Definition equal_radii_solver64 : solver64 := mkSolver64 0.1 1000 0.03 0.03 100 1000.
End Float64.

(** ** Notions for the further statements *)


(** The artists and texts of the two figures, as the plotting methods
    assemble them. *)
Definition trajectory_figure (self : MagnetronSolver) (title : string)
    (x y : list R) : figure :=
  {| fig_title := title;
     fig_xlabel := "x (м)";
     fig_ylabel := "y (м)";
     fig_artists := [ Line x y; Circle 0 0 (Rk self); Circle 0 0 (Ra self) ] |}.

Definition current_figure (U_values Ic_values : list R) (top : R)
    (mask : list bool) : figure :=
  {| fig_title := "Зависимость тока соленоида от напряжения";
     fig_xlabel := "Напряжение U (В)";
     fig_ylabel := "Ток соленоида Ic (А)";
     fig_artists := [ Line U_values Ic_values;
                      FillBetween U_values Ic_values top mask ] |}.

(** The title [plot_trajectory] gives its figure. *)
Definition trajectory_title (str_float : R -> string)
    (format_fixed : nat -> R -> string) (U Ic : R) : string :=
  ("Траектория электрона при U=" ++ str_float U
     ++ " В, Ic=" ++ format_fixed 2%nat Ic ++ " А")%string.

(** The voltages [plot_ic_vs_u] samples, and the [where] argument it
    hands to [fill_between] for them. *)
Definition voltage_grid (self : MagnetronSolver) (num_points : nat) : list R :=
  linspace (U1 self) (U2 self) num_points.

Definition shading_mask (self : MagnetronSolver) (num_points : nat) : list bool :=
  map (fun u => Rge_bool u (U1 self) && Rle_bool u (U2 self))%bool
      (voltage_grid self num_points).

(** The configuration with anode and cathode radius exchanged. *)
Definition swap_radii (self : MagnetronSolver) : MagnetronSolver :=
  mkSolver (D self) (n self) (Rk self) (Ra self) (U1 self) (U2 self).

(** The configuration with the winding density replaced. *)
Definition with_winding (self : MagnetronSolver) (turns : R) : MagnetronSolver :=
  mkSolver (D self) turns (Ra self) (Rk self) (U1 self) (U2 self).

(** ** Rounded arithmetic

    The same program with every operation rounded: a float operation
    returns [rnd] of the exact result, as IEEE 754 prescribes for
    [+], [-], [*], [/] and the square root.  [rnd] stands for rounding
    to nearest in the binary64 format with its exponent range unbounded
    above and its gradual underflow kept: the rounding of binary64 in
    every run without overflow.  [np_cos] and [np_sin] stand for
    numpy's cosine and sine on doubles, [np_pi] for the double [np.pi].
    What is assumed of them is stated with each theorem.  Values are
    finite reals: a run in which an operation overflows is outside this
    model. *)

Inductive numeric_fault : Type :=
| DivideByZero (site : div_site)   (* a zero divisor *)
| InvalidSqrt.                     (* the square root of a negative number *)

Definition bind_fl {A B : Type} (m : numeric_fault + A)
    (k : A -> numeric_fault + B) : numeric_fault + B :=
  match m with
  | inl f => inl f
  | inr a => k a
  end.

Declare Scope fl_scope.
Delimit Scope fl_scope with fl.
Notation "x <- m ;; k" := (bind_fl m (fun x => k))
  (at level 61, m at next level, right associativity) : fl_scope.

Section RoundedModel.

Variable rnd : R -> R.
Variables np_cos np_sin : R -> R.
Variable np_pi : R.
Variables e m_e mu_0 : R.

Definition fl_add (x y : R) : R := rnd (x + y).
Definition fl_sub (x y : R) : R := rnd (x - y).
Definition fl_mul (x y : R) : R := rnd (x * y).
Definition fl_div (x y : R) : R := rnd (x / y).
Definition fl_sqrt (x : R) : R := rnd (sqrt x).

(** *** calculate_solenoid_current, rounded *)

Definition calculate_solenoid_current_fl (self : MagnetronSolver) (U : R) : R :=
  let r := fl_div (fl_sub (Ra self) (Rk self)) 2 in
  let B := fl_div (fl_sqrt (fl_div (fl_mul (fl_mul 2 U) m_e) e)) r in
  let Ic := fl_div B (fl_mul mu_0 (n self)) in
  Ic.

(** The three values the result is built from. *)
Definition radius_fl (self : MagnetronSolver) : R :=
  fl_div (fl_sub (Ra self) (Rk self)) 2.

Definition radicand_fl (U : R) : R :=
  fl_div (fl_mul (fl_mul 2 U) m_e) e.

Definition winding_fl (self : MagnetronSolver) : R :=
  fl_mul mu_0 (n self).

(** The exact values that the evaluation at U rounds and that the
    evaluation at 4 * U meets doubled or quadrupled. *)
Definition doubled_values (self : MagnetronSolver) (U : R) : list R :=
  let a := 2 * U in
  let b := rnd a * m_e in
  let c := rnd b / e in
  let s := sqrt (rnd c) in
  let q := rnd s / radius_fl self in
  let w := rnd q / winding_fl self in
  [a; 2 * a; b; 2 * b; c; 2 * c; s; q; w].

(** The same with the numeric faults made explicit: a zero divisor and
    a negative radicand stop the evaluation.  (numpy warns and goes on
    with an infinity or a NaN, which no later operation turns back into
    a number here.) *)
Definition gdiv_fl (site : div_site) (x y : R) : numeric_fault + R :=
  if Req_dec_T y 0 then inl (DivideByZero site) else inr (fl_div x y).

Definition gsqrt_fl (x : R) : numeric_fault + R :=
  if Rlt_dec x 0 then inl InvalidSqrt else inr (fl_sqrt x).

Definition calculate_solenoid_current_fl_guarded
    (self : MagnetronSolver) (U : R) : numeric_fault + R :=
  (r <- gdiv_fl radius_halving (fl_sub (Ra self) (Rk self)) 2 ;;
   q <- gdiv_fl charge_quotient (fl_mul (fl_mul 2 U) m_e) e ;;
   s <- gsqrt_fl q ;;
   B <- gdiv_fl orbit_radius s r ;;
   Ic <- gdiv_fl winding_product B (fl_mul mu_0 (n self)) ;;
   inr Ic)%fl.

(** *** numpy.linspace, rounded

    As numpy computes it: [step = delta / div]; the samples are
    [i * step + start], or [(i / div) * delta + start] when the step is
    zero; the last of two or more is [stop] itself; a single sample is
    [0 * delta + start]. *)
Definition linspace_fl (start stop : R) (num : nat) : list R :=
  let delta := fl_sub stop start in
  match num with
  | O => []
  | S O => [fl_add (fl_mul 0 delta) start]
  | S div =>
      let step := fl_div delta (INR div) in
      let scaled (i : nat) :=
        if Req_dec_T step 0
        then fl_mul (fl_div (INR i) (INR div)) delta
        else fl_mul (INR i) step in
      map (fun i => fl_add (scaled i) start) (seq 0 div) ++ [stop]
  end.

(** *** electron_trajectory, rounded *)

Definition electron_trajectory_fl
    (self : MagnetronSolver) (U Ic : R) (num_points : nat)
    : list R * list R :=
  let B := fl_mul (fl_mul mu_0 (n self)) Ic in
  let r := fl_div (fl_sub (Ra self) (Rk self)) 2 in
  let theta := linspace_fl 0 (fl_mul 2 np_pi) num_points in
  let x := map (fun t => fl_mul (fl_add (Rk self) r) (np_cos t)) theta in
  let y := map (fun t => fl_mul (fl_add (Rk self) r) (np_sin t)) theta in
  (x, y).

Definition trajectory_points_fl
    (self : MagnetronSolver) (U Ic : R) (num_points : nat) : list (R * R) :=
  let '(x, y) := electron_trajectory_fl self U Ic num_points in
  combine x y.

(** The factor of both coordinates, and the point at angle [t]. *)
Definition scale_fl (self : MagnetronSolver) : R :=
  fl_add (Rk self) (fl_div (fl_sub (Ra self) (Rk self)) 2).

Definition point_fl (self : MagnetronSolver) (t : R) : R * R :=
  (fl_mul (scale_fl self) (np_cos t), fl_mul (scale_fl self) (np_sin t)).

End RoundedModel.

(** The bounds of the trajectory statements: how far a coordinate can
    be from the exact (scale * cos t, scale * sin t), how far the two
    end points can be apart, and how far the computed scale can be from
    (Ra + Rk)/2.  [u] and [eta] bound the relative and the absolute
    rounding error, [u_t] the error of cosine and sine, [d_pi] the
    distance of the last angle from 2*pi. *)
Definition coordinate_tolerance (u eta u_t scale : R) : R :=
  Rabs scale * (u_t + u * (1 + u_t)) + eta.

Definition endpoint_tolerance (u eta u_t d_pi scale : R) : R :=
  Rabs scale * ((d_pi + u_t) + u * (1 + (d_pi + u_t))) + eta.

Definition midpoint_tolerance (u eta : R) (self : MagnetronSolver) : R :=
  let e1 := u * Rabs (Ra self - Rk self) + eta in
  let e2 := u * ((Rabs (Ra self - Rk self) + e1) / 2) + eta in
  (e2 + e1 / 2) + (u * (Rabs ((Ra self + Rk self) / 2) + (e2 + e1 / 2)) + eta).

(** ** Binary64 values as numbers

    The rational number a finite binary64 value stands for, read off
    its sign, mantissa and exponent. *)
Definition SF2Q (f : SpecFloat.spec_float) : Q :=
  match f with
  | SpecFloat.S754_finite s m ex =>
      ((if s then -1 else 1) * inject_Z (Z.pos m) * Qpower 2 ex)%Q
  | _ => 0%Q
  end.

Definition F2Q (f : float) : Q := SF2Q (Prim2SF f).

Definition F2R (f : float) : R := Q2R (F2Q f).

Module Float64Trajectory.
Import Float64.
Local Open Scope float_scope.

(** The double [np.pi]. *)
Definition np_pi64 : float := 0x1.921fb54442d18p+1.

(** The factor [self.Rk + r] of both coordinates. *)
Definition scale_f64 (self : solver64) : float :=
  Rk64 self + (Ra64 self - Rk64 self) / 2.

(** The first pair of a trajectory with at least one point: the sample
    at the angle 0.0, where cosine and sine return exactly 1.0 and 0.0. *)
Definition first_pair_f64 (self : solver64) : float * float :=
  (scale_f64 self * 1, scale_f64 self * 0).

Definition swapped_solver64 : solver64 := mkSolver64 0.1 1000 0.01 0.03 100 1000.
Definition tiny_gap_solver64 : solver64 := mkSolver64 0.1 1000 5e-324 0 100 1000.
Definition thin_gap_solver64 : solver64 :=
  mkSolver64 0.1 1000 (next_up 1) 1 100 1000.
End Float64Trajectory.

(** The number the double [np.pi] stands for. *)
Definition np_pi_value : R := F2R Float64Trajectory.np_pi64.

(** A lower bound for pi: four times the partial sum, up to the odd
    index 17, of the alternating series of 2 atan(1/3) + atan(1/7). *)
Fixpoint qpow (q : Q) (k : nat) : Q :=
  match k with
  | O => 1%Q
  | S k' => (q * qpow q k')%Q
  end.

Definition machin_term (i : nat) : Q :=
  (qpow (-1) i
   * (2 * (qpow (1 # 3) (2 * i + 1) / inject_Z (Z.of_nat (2 * i + 1)))
      + qpow (1 # 7) (2 * i + 1) / inject_Z (Z.of_nat (2 * i + 1))))%Q.

Fixpoint machin_sum (k : nat) : Q :=
  match k with
  | O => machin_term O
  | S k' => (machin_sum k' + machin_term (S k'))%Q
  end.

(** ** The guarded evaluation against the plain one *)

Section GuardedFacts.

Variables e m_e mu_0 : R.

Local Notation "'Ic'" := (calculate_solenoid_current e m_e mu_0).
Local Notation "'Ic_guarded'" := (calculate_solenoid_current_guarded e m_e mu_0).

Lemma gdiv_zero site x y : y = 0 -> gdiv site x y = inl (ZeroDivision site).
Proof.
  intros Hy. unfold gdiv. destruct (Req_dec_T y 0) as [_ | Hne]; [reflexivity | contradiction].
Qed.

Lemma gdiv_nonzero site x y : y <> 0 -> gdiv site x y = inr (x / y).
Proof.
  intros Hy. unfold gdiv. destruct (Req_dec_T y 0) as [Heq | _]; [contradiction | reflexivity].
Qed.

Lemma two_nonzero : 2 <> 0.
Proof. lra. Qed.

(** The guarded evaluation, case by case on the three divisors that
    can vanish, in the order the program meets them. *)
Lemma guarded_cases self U :
  Ic_guarded self U =
    if Req_dec_T e 0 then inl (ZeroDivision charge_quotient)
    else if Req_dec_T ((Ra self - Rk self) / 2) 0 then inl (ZeroDivision orbit_radius)
    else if Req_dec_T (mu_0 * n self) 0 then inl (ZeroDivision winding_product)
    else inr (Ic self U).
Proof.
  unfold calculate_solenoid_current_guarded, calculate_solenoid_current.
  rewrite (gdiv_nonzero radius_halving _ 2 two_nonzero). cbn [bind].
  unfold gdiv at 1. destruct (Req_dec_T e 0) as [He | He]; cbn [bind]; [reflexivity|].
  unfold gdiv at 1.
  destruct (Req_dec_T ((Ra self - Rk self) / 2) 0) as [Hr | Hr]; cbn [bind]; [reflexivity|].
  unfold gdiv.
  destruct (Req_dec_T (mu_0 * n self) 0) as [Hn | Hn]; cbn [bind]; reflexivity.
Qed.

(** A value returned by the guarded evaluation is the plain value. *)
Lemma guarded_sound self U v : Ic_guarded self U = inr v -> v = Ic self U.
Proof.
  rewrite guarded_cases.
  destruct (Req_dec_T e 0); [discriminate|].
  destruct (Req_dec_T ((Ra self - Rk self) / 2) 0); [discriminate|].
  destruct (Req_dec_T (mu_0 * n self) 0); [discriminate|].
  intros H. injection H as <-. reflexivity.
Qed.

(** No divisor vanishes: the guarded evaluation returns. *)
Lemma guarded_returns self U :
  e <> 0 -> Ra self <> Rk self -> mu_0 <> 0 -> n self <> 0 ->
  Ic_guarded self U = inr (Ic self U).
Proof.
  intros He Hr Hmu Hn. rewrite guarded_cases.
  destruct (Req_dec_T e 0); [contradiction|].
  destruct (Req_dec_T ((Ra self - Rk self) / 2) 0) as [H0 | _]; [exfalso; lra|].
  destruct (Req_dec_T (mu_0 * n self) 0) as [H0 | _]; [|reflexivity].
  exfalso. apply Rmult_integral in H0. tauto.
Qed.

(** The current as one product: the root times the inverse of
    radius times winding product. *)
Lemma current_as_product self U :
  Ic self U =
    sqrt (2 * U * m_e / e) * / ((Ra self - Rk self) / 2 * (mu_0 * n self)).
Proof.
  unfold calculate_solenoid_current, Rdiv.
  rewrite (Rinv_mult ((Ra self - Rk self) * / 2)). ring.
Qed.

End GuardedFacts.

(** ** The current calculator *)

Section CurrentFacts.

Variables e m_e mu_0 : R.

Local Notation "'Ic'" := (calculate_solenoid_current e m_e mu_0).
Local Notation "'Ic_guarded'" := (calculate_solenoid_current_guarded e m_e mu_0).

(** C1. For every voltage and every configuration the returned current
    is the closed form sqrt(2*U*m_e/e) / ((Ra - Rk)/2) / (mu_0 * n),
    which is the specification's chain: orbit radius, flux density
    B = sqrt(2*U*m_e/e) / r, current B / (mu_0 * n). *)
Theorem calculate_solenoid_current_closed_form (self : MagnetronSolver) (U : R) :
  Ic self U = sqrt (2 * U * m_e / e) / ((Ra self - Rk self) / 2) / (mu_0 * n self)
  /\ Ic self U = spec_solenoid_current e m_e mu_0 self U
  /\ spec_flux_density e m_e self U = sqrt (2 * U * m_e / e) / spec_orbit_radius self
  /\ spec_orbit_radius self = (Ra self - Rk self) / 2.
Proof.
  unfold calculate_solenoid_current, spec_solenoid_current,
    spec_flux_density, spec_orbit_radius.
  repeat split; reflexivity.
Qed.

Hypothesis e_pos : 0 < e.
Hypothesis m_e_pos : 0 < m_e.
Hypothesis mu_0_pos : 0 < mu_0.

Lemma scale_positive self :
  0 < n self * (Ra self - Rk self) ->
  0 < / ((Ra self - Rk self) / 2 * (mu_0 * n self)).
Proof.
  intros H. apply Rinv_0_lt_compat.
  replace ((Ra self - Rk self) / 2 * (mu_0 * n self))
    with (mu_0 / 2 * (n self * (Ra self - Rk self))) by (unfold Rdiv; ring).
  apply Rmult_lt_0_compat; lra.
Qed.

Lemma scale_negative self :
  n self * (Ra self - Rk self) < 0 ->
  / ((Ra self - Rk self) / 2 * (mu_0 * n self)) < 0.
Proof.
  intros H. apply Rinv_lt_0_compat.
  replace ((Ra self - Rk self) / 2 * (mu_0 * n self))
    with (mu_0 / 2 * (n self * (Ra self - Rk self))) by (unfold Rdiv; ring).
  assert (0 < mu_0 / 2) by lra. nra.
Qed.

End CurrentFacts.

Section ProportionalityFacts.

Variables e m_e mu_0 : R.

Local Notation "'Ic'" := (calculate_solenoid_current e m_e mu_0).
Local Notation "'Ic_guarded'" := (calculate_solenoid_current_guarded e m_e mu_0).

Lemma doubled_winding_halves self self' U :
  n self' = 2 * n self -> Ra self' = Ra self -> Rk self' = Rk self ->
  Ic self' U = Ic self U / 2.
Proof.
  intros Hn HRa HRk. rewrite !current_as_product, Hn, HRa, HRk.
  replace ((Ra self - Rk self) / 2 * (mu_0 * (2 * n self)))
    with (2 * ((Ra self - Rk self) / 2 * (mu_0 * n self))) by ring.
  rewrite (Rinv_mult 2). unfold Rdiv. ring.
Qed.

Lemma doubled_radius_halves self self' U :
  n self' = n self -> Ra self' - Rk self' = 2 * (Ra self - Rk self) ->
  Ic self' U = Ic self U / 2.
Proof.
  intros Hn Hr. rewrite !current_as_product, Hn, Hr.
  replace (2 * (Ra self - Rk self) / 2 * (mu_0 * n self))
    with (2 * ((Ra self - Rk self) / 2 * (mu_0 * n self))) by (unfold Rdiv; ring).
  rewrite (Rinv_mult 2). unfold Rdiv. ring.
Qed.


(** The same on the guarded evaluation: where it returns a current,
    it returns half of it after either doubling. *)
Lemma guarded_doubling_halves self self' U v :
  Ic_guarded self U = inr v ->
  (n self' = 2 * n self /\ Ra self' = Ra self /\ Rk self' = Rk self)
  \/ (n self' = n self /\ Ra self' - Rk self' = 2 * (Ra self - Rk self)) ->
  Ic_guarded self' U = inr (v / 2).
Proof.
  intros Hv Hcfg. pose proof (guarded_sound _ _ _ _ _ _ Hv) as ->.
  rewrite guarded_cases in Hv. rewrite guarded_cases.
  destruct (Req_dec_T e 0); [discriminate|].
  destruct (Req_dec_T ((Ra self - Rk self) / 2) 0) as [|Hr]; [discriminate|].
  destruct (Req_dec_T (mu_0 * n self) 0) as [|Hn]; [discriminate|].
  destruct Hcfg as [(Hn2 & HRa & HRk) | (Hn1 & Hr2)].
  - destruct (Req_dec_T ((Ra self' - Rk self') / 2) 0) as [H0|_];
      [exfalso; rewrite HRa, HRk in H0; contradiction|].
    destruct (Req_dec_T (mu_0 * n self') 0) as [H0|_].
    + exfalso. apply Hn. rewrite Hn2 in H0. lra.
    + f_equal. apply doubled_winding_halves; assumption.
  - destruct (Req_dec_T ((Ra self' - Rk self') / 2) 0) as [H0|_];
      [exfalso; rewrite Hr2 in H0; lra|].
    destruct (Req_dec_T (mu_0 * n self') 0) as [H0|_].
    + exfalso. apply Hn. rewrite Hn1 in H0. exact H0.
    + f_equal. apply doubled_radius_halves; assumption.
Qed.

End ProportionalityFacts.

(** ** The calculator at the closed instances *)

Lemma codata_positive :
  0 < CODATA2018.e /\ 0 < CODATA2018.m_e /\ 0 < CODATA2018.mu_0.
Proof.
  unfold CODATA2018.e, CODATA2018.m_e, CODATA2018.mu_0. repeat split; lra.
Qed.


(** ** Sampling *)

Lemma linspace_length start stop num : length (linspace start stop num) = num.
Proof.
  destruct num as [|[|div]]; try reflexivity.
  unfold linspace. rewrite length_app, length_map, length_seq. cbn [length]. lia.
Qed.

Lemma linspace_first start stop num :
  (1 <= num)%nat -> exists t, nth_error (linspace start stop num) 0 = Some t /\ t = start.
Proof.
  intros Hnum. destruct num as [|[|div]]; [lia | |].
  - exists start. split; reflexivity.
  - eexists. split; [reflexivity|]. cbn [INR]. ring.
Qed.

Lemma linspace_last start stop num :
  (2 <= num)%nat -> nth_error (linspace start stop num) (num - 1) = Some stop.
Proof.
  intros Hnum. destruct num as [|[|div]]; [lia | lia |].
  unfold linspace.
  rewrite nth_error_app2; rewrite length_map, length_seq; [|lia].
  replace (S (S div) - 1 - S div)%nat with 0%nat by lia. reflexivity.
Qed.

(** ** The trajectory generator *)

Section TrajectoryFacts.

Variable mu_0 : R.

Local Notation "'trajectory'" := (electron_trajectory mu_0).
Local Notation "'points'" := (trajectory_points mu_0).

Lemma combine_map_map {A B C : Type} (f : A -> B) (g : A -> C) (l : list A) :
  combine (map f l) (map g l) = map (fun a => (f a, g a)) l.
Proof.
  induction l as [|a l IH]; cbn; [reflexivity | now rewrite IH].
Qed.

Lemma points_as_map self U Ic num_points :
  points self U Ic num_points
  = map (point_at self) (linspace 0 (2 * PI) num_points).
Proof.
  unfold trajectory_points, electron_trajectory. apply combine_map_map.
Qed.

(** C5. The x sequence and the y sequence have the requested length
    each, so the trajectory has that many pairs; a call that leaves
    the count out gets 1000 of them. *)
Theorem electron_trajectory_length (self : MagnetronSolver) (U Ic : R) (num_points : nat) :
  length (fst (trajectory self U Ic num_points)) = num_points
  /\ length (snd (trajectory self U Ic num_points)) = num_points
  /\ length (points self U Ic num_points) = num_points
  /\ length (points self U Ic num_points_default) = 1000%nat.
Proof.
  unfold electron_trajectory. cbn [fst snd].
  rewrite !points_as_map, !length_map, !linspace_length. repeat split.
Qed.

(** C9. The returned sequences are the same whatever voltage and
    whatever current are passed: the flux density computed from the
    current does not reach the coordinates, which are those of
    [point_at] over the angle samples. *)
Theorem trajectory_independent_of_voltage_and_current
    (self : MagnetronSolver) (U Ic U' Ic' : R) (num_points : nat) :
  trajectory self U Ic num_points = trajectory self U' Ic' num_points
  /\ trajectory self U Ic num_points
     = (map (fun t => fst (point_at self t)) (linspace 0 (2 * PI) num_points),
        map (fun t => snd (point_at self t)) (linspace 0 (2 * PI) num_points)).
Proof.
  unfold electron_trajectory, point_at. cbv zeta. cbn [fst snd].
  split; reflexivity.
Qed.

End TrajectoryFacts.

(** ** Three samples against the orbit circle *)

Lemma linspace_three start stop :
  linspace start stop 3 = [start; (start + stop) / 2; stop].
Proof.
  unfold linspace. cbn [seq map app INR].
  f_equal; [lra | f_equal; lra].
Qed.

Section OrbitCircle.

Variable mu_0 : R.

Lemma three_points self U Ic :
  trajectory_points mu_0 self U Ic 3
  = [ (Rk self + (Ra self - Rk self) / 2, 0);
      (- (Rk self + (Ra self - Rk self) / 2), 0);
      (Rk self + (Ra self - Rk self) / 2, 0) ].
Proof.
  rewrite points_as_map, linspace_three. cbn [map]. unfold point_at.
  replace ((0 + 2 * PI) / 2) with PI by lra.
  rewrite cos_0, sin_0, cos_PI, sin_PI, cos_2PI, sin_2PI.
  repeat (f_equal; try lra).
Qed.

(** Between a cathode and a larger anode, the three samples at angles
    0, pi and 2*pi are on no circle of radius (Ra - Rk)/2 whose centre
    is at distance Rk + (Ra - Rk)/2 from the origin. *)
Lemma three_points_off_orbit_circle self U Ic :
  0 < Rk self < Ra self ->
  ~ exists cx cy : R, on_orbit_circle self cx cy (trajectory_points mu_0 self U Ic 3).
Proof.
  intros Hradii (cx & cy & Hcentre & Hpts). cbv zeta in Hcentre, Hpts.
  rewrite three_points in Hpts.
  set (r := (Ra self - Rk self) / 2) in *.
  inversion Hpts as [|p0 l0 H0 Hrest]; subst.
  inversion Hrest as [|p1 l1 H1 _]; subst.
  unfold on_circle, Rsqr in H0, H1. cbn [fst snd] in H0, H1.
  unfold Rsqr in Hcentre.
  assert (Hr : 0 < r) by (unfold r; lra).
  nra.
Qed.

(** C2, at the entry point's configuration with three samples: the
    generated pairs are (0.02, 0), (-0.02, 0), (0.02, 0), and no
    circle of radius (Ra - Rk)/2 = 0.01 centred at distance
    Rk + 0.01 = 0.02 from the origin passes through them. *)
Theorem example_trajectory_off_orbit_circle (U Ic : R) :
  trajectory_points mu_0 example_solver U Ic 3
    = [ (0.02, 0); (-0.02, 0); (0.02, 0) ]
  /\ ~ exists cx cy : R,
         on_orbit_circle example_solver cx cy
           (trajectory_points mu_0 example_solver U Ic 3).
Proof.
  split.
  - rewrite three_points. cbn [Ra Rk example_solver].
    repeat (f_equal; try lra).
  - apply three_points_off_orbit_circle. cbn. lra.
Qed.

End OrbitCircle.

(** ** The entry point *)

Section EntryPoint.

Variables e m_e mu_0 : R.
Variable str_float : R -> string.
Variable format_fixed : nat -> R -> string.

Local Notation "'run_main'" := (main e m_e mu_0 str_float format_fixed).
Local Notation "'report'" := (report_line e m_e mu_0 str_float format_fixed).

(** The run of the entry point: the report, then the two figures. *)
Lemma main_trace :
  exists trajectory_figure current_figure : figure,
    run_main = ([Print report; Show trajectory_figure; Show current_figure], inr tt).
Proof.
  do 2 eexists. reflexivity.
Qed.

(** C8. The entry point takes the midpoint voltage (U1 + U2)/2 of the
    bounds 100 and 1000 and writes one line to standard output: the
    report text with that voltage and with the current computed at it
    by calculate_solenoid_current, the current in fixed notation with
    4 decimals. *)
Theorem main_prints_report :
  stdout run_main = [report]
  /\ (U1 example_solver + U2 example_solver) / 2 = (100 + 1000) / 2.
Proof.
  split; reflexivity.
Qed.

End EntryPoint.

(** ** Binary64 evaluation of the calculator *)

Section Binary64.

Import Float64.
Local Open Scope float_scope.

(** The current at the midpoint voltage of the entry point. *)
Example f64_midpoint_current :
  calculate_solenoid_current_f64 example_solver64 550 = 6.2932615169940052.
Proof. vm_compute. reflexivity. Qed.

(** Rounding: 550 and the next binary64 number give the same current. *)
Example f64_adjacent_voltages_tie :
  PrimFloat.ltb 550 (next_up 550) = true
  /\ calculate_solenoid_current_f64 example_solver64 (next_up 550)
     = calculate_solenoid_current_f64 example_solver64 550.
Proof. split; vm_compute; reflexivity. Qed.

(** Equal radii: the division by the zero radius gives infinity. *)
Example f64_equal_radii_infinite :
  calculate_solenoid_current_f64 equal_radii_solver64 550 = infinity.
Proof. vm_compute. reflexivity. Qed.

End Binary64.

(** ** Order of the currents *)

Section CurrentOrder.

Variables e m_e mu_0 : R.
Hypothesis e_pos : 0 < e.
Hypothesis m_e_pos : 0 < m_e.
Hypothesis mu_0_pos : 0 < mu_0.

Local Notation "'Ic'" := (calculate_solenoid_current e m_e mu_0).

Lemma radicand_monotone U U' : U <= U' -> 2 * U * m_e / e <= 2 * U' * m_e / e.
Proof.
  intros HUU'.
  assert (Hk : 0 < m_e / e) by (apply Rdiv_lt_0_compat; assumption).
  replace (2 * U * m_e / e) with (2 * U * (m_e / e)) by (unfold Rdiv; ring).
  replace (2 * U' * m_e / e) with (2 * U' * (m_e / e)) by (unfold Rdiv; ring).
  nra.
Qed.

Lemma current_nondecreasing self U U' :
  0 < n self * (Ra self - Rk self) -> U <= U' -> Ic self U <= Ic self U'.
Proof.
  intros Hcfg HUU'. rewrite !current_as_product.
  apply Rmult_le_compat_r.
  - apply Rlt_le, scale_positive; assumption.
  - apply sqrt_le_1_alt, radicand_monotone, HUU'.
Qed.

Lemma current_nonincreasing self U U' :
  n self * (Ra self - Rk self) < 0 -> U <= U' -> Ic self U' <= Ic self U.
Proof.
  intros Hcfg HUU'. rewrite !current_as_product.
  pose proof (scale_negative mu_0 mu_0_pos self Hcfg) as Hs.
  pose proof (sqrt_le_1_alt _ _ (radicand_monotone U U' HUU')) as Hq.
  nra.
Qed.

End CurrentOrder.

(** ** Further facts on sampling *)

(** The i-th of at least two samples, the closing one included. *)
Lemma linspace_nth start stop num i :
  (2 <= num)%nat -> (i < num)%nat ->
  exists t, nth_error (linspace start stop num) i = Some t
            /\ t = start + INR i * ((stop - start) / INR (num - 1)).
Proof.
  intros Hnum Hi. destruct num as [|[|d]]; [lia | lia |].
  replace (S (S d) - 1)%nat with (S d) by lia.
  unfold linspace.
  destruct (Nat.eq_dec i (S d)) as [-> | Hne].
  - exists stop. split.
    + rewrite nth_error_app2; rewrite length_map, length_seq; [|lia].
      replace (S d - S d)%nat with 0%nat by lia. reflexivity.
    + assert (HS : INR (S d) <> 0) by (apply not_0_INR; lia).
      field. exact HS.
  - eexists. split.
    + rewrite nth_error_app1 by (rewrite length_map, length_seq; lia).
      rewrite nth_error_map, nth_error_seq.
      replace (i <? S d) with true by (symmetry; apply Nat.ltb_lt; lia).
      cbn [option_map Nat.add]. reflexivity.
    + ring.
Qed.

(** Samples of an ascending range stay in the range. *)
Lemma linspace_bounds start stop num t :
  start <= stop -> In t (linspace start stop num) -> start <= t <= stop.
Proof.
  intros Hle Hin. destruct num as [|[|d]].
  - contradiction.
  - destruct Hin as [<- | []]. lra.
  - apply In_nth_error in Hin. destruct Hin as (i & Hi).
    assert (Hlt : (i < S (S d))%nat).
    { rewrite <- (linspace_length start stop (S (S d))).
      apply nth_error_Some. rewrite Hi. discriminate. }
    destruct (linspace_nth start stop (S (S d)) i) as (t' & Ht' & Heq); [lia | exact Hlt |].
    rewrite Hi in Ht'. injection Ht' as <-.
    replace (S (S d) - 1)%nat with (S d) in Heq by lia.
    assert (HS : 0 < INR (S d)) by (apply lt_0_INR; lia).
    assert (Hi0 : 0 <= INR i) by apply pos_INR.
    assert (HiS : INR i <= INR (S d)) by (apply le_INR; lia).
    assert (Hfrac : 0 <= INR i / INR (S d) <= 1).
    { split.
      - apply Rmult_le_pos; [exact Hi0 | apply Rlt_le, Rinv_0_lt_compat, HS].
      - apply (Rmult_le_reg_r (INR (S d))); [exact HS|].
        unfold Rdiv. rewrite Rmult_assoc, Rinv_l by lra. lra. }
    replace t with (start + INR i / INR (S d) * (stop - start))
      by (rewrite Heq; unfold Rdiv; ring).
    nra.
Qed.

(** ** Further facts on the trajectory generator *)


Section TrajectoryShape.

Variable mu_0 : R.

Local Notation "'trajectory'" := (electron_trajectory mu_0).
Local Notation "'points'" := (trajectory_points mu_0).


End TrajectoryShape.

(** ** The current-against-voltage plot *)

Lemma fold_left_Rmax_upper (l : list R) (a : R) :
  a <= fold_left Rmax l a /\ Forall (fun v => v <= fold_left Rmax l a) l.
Proof.
  revert a. induction l as [|b l IH]; intros a; cbn [fold_left].
  - split; [lra | constructor].
  - destruct (IH (Rmax a b)) as [Hab Hall].
    pose proof (Rmax_l a b). pose proof (Rmax_r a b).
    split; [lra|]. constructor; [lra | exact Hall].
Qed.

Lemma fold_left_Rmax_attained (l : list R) (a : R) :
  In (fold_left Rmax l a) (a :: l).
Proof.
  revert a. induction l as [|b l IH]; intros a; cbn [fold_left].
  - left. reflexivity.
  - destruct (IH (Rmax a b)) as [Heq | Hin].
    + rewrite <- Heq. apply (Rmax_case a b (fun m => In m (a :: b :: l))).
      * left. reflexivity.
      * right. left. reflexivity.
    + right. right. exact Hin.
Qed.

Lemma map_all_equal {A B : Type} (f : A -> B) (b : B) (l : list A) :
  (forall a, In a l -> f a = b) -> map f l = repeat b (length l).
Proof.
  induction l as [|a l IH]; intros Hall; cbn; [reflexivity|].
  rewrite Hall by (left; reflexivity). f_equal. apply IH.
  intros a' Hin. apply Hall. right. exact Hin.
Qed.

Section CurrentPlot.

Variables e m_e mu_0 : R.

Local Notation "'Ic'" := (calculate_solenoid_current e m_e mu_0).
Local Notation "'plot'" := (plot_ic_vs_u e m_e mu_0).

(** With at least one sample the plot is shown, its level being the
    running maximum of the currents. *)
Lemma plot_ic_vs_u_run self num :
  (1 <= num)%nat ->
  exists first rest,
    map (Ic self) (voltage_grid self num) = first :: rest
    /\ plot self num
       = ([Show (current_figure (voltage_grid self num)
                   (map (Ic self) (voltage_grid self num))
                   (fold_left Rmax rest first) (shading_mask self num))],
          inr tt).
Proof.
  intros Hnum. unfold plot_ic_vs_u, shading_mask, voltage_grid. cbv zeta.
  pose proof (linspace_length (U1 self) (U2 self) num) as Hlen.
  destruct (linspace (U1 self) (U2 self) num) as [|u us] eqn:Hgrid.
  - cbn in Hlen. lia.
  - cbn [map]. do 2 eexists. split; reflexivity.
Qed.

Lemma grid_maximum self num first rest :
  map (Ic self) (voltage_grid self num) = first :: rest ->
  In (fold_left Rmax rest first) (map (Ic self) (voltage_grid self num))
  /\ Forall (fun v => v <= fold_left Rmax rest first)
            (map (Ic self) (voltage_grid self num)).
Proof.
  intros ->. split.
  - apply fold_left_Rmax_attained.
  - destruct (fold_left_Rmax_upper rest first) as [Hfirst Hrest].
    constructor; assumption.
Qed.


Lemma shading_mask_ascending self num :
  U1 self <= U2 self -> shading_mask self num = repeat true num.
Proof.
  intros Hbounds. unfold shading_mask, voltage_grid.
  rewrite <- (linspace_length (U1 self) (U2 self) num) at 2.
  apply map_all_equal. intros u Hu.
  apply (linspace_bounds _ _ _ _ Hbounds) in Hu.
  unfold Rge_bool, Rle_bool.
  destruct (Rge_dec u (U1 self)); [|exfalso; lra].
  destruct (Rle_dec u (U2 self)); [reflexivity | exfalso; lra].
Qed.



Hypothesis e_pos : 0 < e.
Hypothesis m_e_pos : 0 < m_e.
Hypothesis mu_0_pos : 0 < mu_0.

Lemma grid_ends self num :
  (2 <= num)%nat ->
  In (U1 self) (voltage_grid self num) /\ In (U2 self) (voltage_grid self num).
Proof.
  intros Hnum. unfold voltage_grid. split.
  - destruct (linspace_first (U1 self) (U2 self) num) as (t & Ht & ->); [lia|].
    apply nth_error_In in Ht. exact Ht.
  - apply (nth_error_In _ (num - 1)), linspace_last, Hnum.
Qed.

Lemma fill_level_cases self num :
  0 <= U1 self <= U2 self -> (2 <= num)%nat ->
  exists top,
    plot self num
    = ([Show (current_figure (voltage_grid self num)
                (map (Ic self) (voltage_grid self num))
                top (shading_mask self num))],
       inr tt)
    /\ (0 < n self * (Ra self - Rk self) -> top = Ic self (U2 self))
    /\ (n self * (Ra self - Rk self) < 0 -> top = Ic self (U1 self)).
Proof.
  intros Hbounds Hnum.
  destruct (plot_ic_vs_u_run self num) as (first & rest & Hmap & Hrun); [lia|].
  destruct (grid_maximum self num first rest Hmap) as [Hin Hall].
  destruct (grid_ends self num Hnum) as [HU1 HU2].
  rewrite Forall_forall in Hall.
  apply in_map_iff in Hin. destruct Hin as (u & Hu & Hgrid).
  assert (Hrange : U1 self <= u <= U2 self)
    by (apply (linspace_bounds _ _ num); [lra | exact Hgrid]).
  exists (fold_left Rmax rest first). split; [exact Hrun|].
  split; intros Hcfg; apply Rle_antisym.
  - rewrite <- Hu. apply current_nondecreasing; try assumption. lra.
  - apply Hall, in_map, HU2.
  - rewrite <- Hu. apply current_nonincreasing; try assumption. lra.
  - apply Hall, in_map, HU1.
Qed.


End CurrentPlot.

(** ** The whole run *)

Section WholeRun.

Variables e m_e mu_0 : R.
Variable str_float : R -> string.
Variable format_fixed : nat -> R -> string.

Local Notation "'Ic'" := (calculate_solenoid_current e m_e mu_0).

(** plot_trajectory shows its figure and returns, on every input. *)
Lemma plot_trajectory_run self U I :
  plot_trajectory mu_0 str_float format_fixed self U I
  = ([Show (trajectory_figure self (trajectory_title str_float format_fixed U I)
              (fst (electron_trajectory mu_0 self U I num_points_default))
              (snd (electron_trajectory mu_0 self U I num_points_default)))],
     inr tt).
Proof. reflexivity. Qed.

Lemma main_steps :
  main e m_e mu_0 str_float format_fixed
  = (_ <- print (report_line e m_e mu_0 str_float format_fixed) ;;
     _ <- plot_trajectory mu_0 str_float format_fixed example_solver
            ((100 + 1000) / 2) (Ic example_solver ((100 + 1000) / 2)) ;;
     plot_ic_vs_u e m_e mu_0 example_solver 100)%io.
Proof. reflexivity. Qed.

Hypothesis e_pos : 0 < e.
Hypothesis m_e_pos : 0 < m_e.
Hypothesis mu_0_pos : 0 < mu_0.

(** The run of the entry point, for positive constants: it ends
    without an exception after three events in this order: the report
    line, the trajectory figure (1000 pairs, electrode circles of radii
    0.01 and 0.03), the current figure (100 voltages from 100 to 1000,
    shaded over the whole range up to the current at 1000 V). *)
Theorem main_run :
  main e m_e mu_0 str_float format_fixed
  = ([ Print (report_line e m_e mu_0 str_float format_fixed);
       Show (trajectory_figure example_solver
               (trajectory_title str_float format_fixed ((100 + 1000) / 2)
                  (Ic example_solver ((100 + 1000) / 2)))
               (fst (electron_trajectory mu_0 example_solver ((100 + 1000) / 2)
                       (Ic example_solver ((100 + 1000) / 2)) 1000))
               (snd (electron_trajectory mu_0 example_solver ((100 + 1000) / 2)
                       (Ic example_solver ((100 + 1000) / 2)) 1000)));
       Show (current_figure (linspace 100 1000 100)
               (map (Ic example_solver) (linspace 100 1000 100))
               (Ic example_solver 1000) (repeat true 100)) ],
     inr tt)
  /\ length (fst (electron_trajectory mu_0 example_solver ((100 + 1000) / 2)
                    (Ic example_solver ((100 + 1000) / 2)) 1000)) = 1000%nat
  /\ length (linspace 100 1000 100) = 100%nat.
Proof.
  split; [|split].
  - rewrite main_steps, plot_trajectory_run.
    destruct (fill_level_cases e m_e mu_0 e_pos m_e_pos mu_0_pos example_solver 100)
      as (top & Hrun & Hup & _); [cbn; lra | lia |].
    rewrite Hrun, Hup by (cbn; lra).
    rewrite shading_mask_ascending by (cbn; lra).
    reflexivity.
  - unfold electron_trajectory. cbn [fst]. now rewrite length_map, linspace_length.
  - apply linspace_length.
Qed.

End WholeRun.

(** ** The further facts at the closed instances *)





Lemma main_run_witness :
  snd (main CODATA2018.e CODATA2018.m_e CODATA2018.mu_0
         (fun _ => EmptyString) (fun _ _ => EmptyString)) = inr tt
  /\ length (fst (main CODATA2018.e CODATA2018.m_e CODATA2018.mu_0
                    (fun _ => EmptyString) (fun _ _ => EmptyString))) = 3%nat.
Proof.
  destruct codata_positive as (He & Hm & Hmu).
  rewrite (proj1 (main_run CODATA2018.e CODATA2018.m_e CODATA2018.mu_0
                    (fun _ => EmptyString) (fun _ _ => EmptyString) He Hm Hmu)).
  split; reflexivity.
Defined.

(** ** The rounded calculator *)

Section RoundedCurrent.

Variable rnd : R -> R.
Variables e m_e mu_0 : R.

(** Rounding to nearest keeps the order and is exact on zero. *)
Hypothesis rnd_monotone : forall x y : R, x <= y -> rnd x <= rnd y.
Hypothesis rnd_zero : rnd 0 = 0.

Local Notation "'Ic_fl'" := (calculate_solenoid_current_fl rnd e m_e mu_0).
Local Notation "'Ic_fl_guarded'" := (calculate_solenoid_current_fl_guarded rnd e m_e mu_0).
Local Notation "'radius'" := (radius_fl rnd).
Local Notation "'radicand'" := (radicand_fl rnd e m_e).
Local Notation "'winding'" := (winding_fl rnd mu_0).

Lemma rnd_nonneg x : 0 <= x -> 0 <= rnd x.
Proof. intros Hx. rewrite <- rnd_zero. apply rnd_monotone, Hx. Qed.

Lemma rnd_nonpos x : x <= 0 -> rnd x <= 0.
Proof. intros Hx. rewrite <- rnd_zero. apply rnd_monotone, Hx. Qed.

Lemma current_fl_unfold self U :
  Ic_fl self U
  = rnd (rnd (rnd (sqrt (radicand U)) / radius self) / winding self).
Proof. reflexivity. Qed.

(** The guarded evaluation, case by case, in the order of the faults. *)
Lemma guarded_fl_cases self U :
  Ic_fl_guarded self U =
    if Req_dec_T e 0 then inl (DivideByZero charge_quotient)
    else if Rlt_dec (radicand U) 0 then inl InvalidSqrt
    else if Req_dec_T (radius self) 0 then inl (DivideByZero orbit_radius)
    else if Req_dec_T (winding self) 0 then inl (DivideByZero winding_product)
    else inr (Ic_fl self U).
Proof.
  unfold calculate_solenoid_current_fl_guarded, calculate_solenoid_current_fl,
    radius_fl, radicand_fl, winding_fl.
  unfold gdiv_fl at 1. destruct (Req_dec_T 2 0) as [H2 | _]; [exfalso; lra|].
  cbn [bind_fl].
  unfold gdiv_fl at 1. destruct (Req_dec_T e 0) as [He | He]; cbn [bind_fl]; [reflexivity|].
  unfold gsqrt_fl.
  destruct (Rlt_dec (fl_div rnd (fl_mul rnd (fl_mul rnd 2 U) m_e) e) 0);
    cbn [bind_fl]; [reflexivity|].
  unfold gdiv_fl at 1.
  destruct (Req_dec_T (fl_div rnd (fl_sub rnd (Ra self) (Rk self)) 2) 0);
    cbn [bind_fl]; [reflexivity|].
  unfold gdiv_fl.
  destruct (Req_dec_T (fl_mul rnd mu_0 (n self)) 0); cbn [bind_fl]; reflexivity.
Qed.

(** Equal radii give the radius zero; no turns give the winding
    product zero. *)
Lemma radius_fl_equal_radii self : Ra self = Rk self -> radius self = 0.
Proof.
  intros Heq. unfold radius_fl, fl_div, fl_sub. rewrite Heq.
  replace (Rk self - Rk self) with 0 by ring. rewrite rnd_zero.
  replace (0 / 2) with 0 by lra. apply rnd_zero.
Qed.


Lemma radius_fl_sign self :
  (Rk self <= Ra self -> 0 <= radius self)
  /\ (Ra self <= Rk self -> radius self <= 0).
Proof.
  unfold radius_fl, fl_div, fl_sub. split; intros Hle.
  - apply rnd_nonneg. assert (0 <= rnd (Ra self - Rk self)) by (apply rnd_nonneg; lra). lra.
  - apply rnd_nonpos. assert (rnd (Ra self - Rk self) <= 0) by (apply rnd_nonpos; lra). lra.
Qed.

Hypothesis e_pos : 0 < e.
Hypothesis m_e_pos : 0 < m_e.
Hypothesis mu_0_pos : 0 < mu_0.

Lemma winding_fl_sign self :
  (0 <= n self -> 0 <= winding self) /\ (n self <= 0 -> winding self <= 0).
Proof.
  unfold winding_fl, fl_mul. split; intros Hn.
  - apply rnd_nonneg. nra.
  - apply rnd_nonpos. nra.
Qed.

Lemma radicand_fl_monotone U U' : U <= U' -> radicand U <= radicand U'.
Proof.
  intros HUU'. unfold radicand_fl, fl_div, fl_mul.
  apply rnd_monotone.
  apply Rmult_le_compat_r; [apply Rlt_le, Rinv_0_lt_compat, e_pos|].
  apply rnd_monotone.
  apply Rmult_le_compat_r; [lra|].
  apply rnd_monotone. lra.
Qed.

Lemma radicand_fl_zero : radicand 0 = 0.
Proof.
  unfold radicand_fl, fl_div, fl_mul.
  rewrite Rmult_0_r, rnd_zero, Rmult_0_l, rnd_zero.
  replace (0 / e) with 0 by (unfold Rdiv; ring). apply rnd_zero.
Qed.

Lemma radicand_fl_nonneg U : 0 <= U -> 0 <= radicand U.
Proof.
  intros HU. rewrite <- radicand_fl_zero. apply radicand_fl_monotone, HU.
Qed.

Lemma root_fl_order U U' :
  0 <= U -> U <= U' ->
  0 <= rnd (sqrt (radicand U)) <= rnd (sqrt (radicand U')).
Proof.
  intros HU HUU'. split.
  - apply rnd_nonneg, sqrt_pos.
  - apply rnd_monotone, sqrt_le_1_alt, radicand_fl_monotone, HUU'.
Qed.

(** The two roundings after the root keep or turn the order with the
    signs of the two divisors. *)
Lemma quotient_fl_same_sign r w s s' :
  (0 < r /\ 0 < w) \/ (r < 0 /\ w < 0) ->
  0 <= s -> s <= s' ->
  0 <= rnd (rnd (s / r) / w) <= rnd (rnd (s' / r) / w).
Proof.
  intros Hsign Hs Hss'. destruct Hsign as [[Hr Hw] | [Hr Hw]].
  - pose proof (Rinv_0_lt_compat r Hr) as Hir.
    pose proof (Rinv_0_lt_compat w Hw) as Hiw.
    assert (H0 : 0 <= rnd (s / r)) by (apply rnd_nonneg; unfold Rdiv; nra).
    assert (H1 : rnd (s / r) <= rnd (s' / r))
      by (apply rnd_monotone; unfold Rdiv; nra).
    split.
    + apply rnd_nonneg. unfold Rdiv. nra.
    + apply rnd_monotone. unfold Rdiv. nra.
  - pose proof (Rinv_lt_0_compat r Hr) as Hir.
    pose proof (Rinv_lt_0_compat w Hw) as Hiw.
    assert (H0 : rnd (s / r) <= 0) by (apply rnd_nonpos; unfold Rdiv; nra).
    assert (H1 : rnd (s' / r) <= rnd (s / r))
      by (apply rnd_monotone; unfold Rdiv; nra).
    split.
    + apply rnd_nonneg. unfold Rdiv. nra.
    + apply rnd_monotone. unfold Rdiv. nra.
Qed.

Lemma quotient_fl_opposite_sign r w s s' :
  (0 < r /\ w < 0) \/ (r < 0 /\ 0 < w) ->
  0 <= s -> s <= s' ->
  rnd (rnd (s' / r) / w) <= rnd (rnd (s / r) / w) <= 0.
Proof.
  intros Hsign Hs Hss'. destruct Hsign as [[Hr Hw] | [Hr Hw]].
  - pose proof (Rinv_0_lt_compat r Hr) as Hir.
    pose proof (Rinv_lt_0_compat w Hw) as Hiw.
    assert (H0 : 0 <= rnd (s / r)) by (apply rnd_nonneg; unfold Rdiv; nra).
    assert (H1 : rnd (s / r) <= rnd (s' / r))
      by (apply rnd_monotone; unfold Rdiv; nra).
    split.
    + apply rnd_monotone. unfold Rdiv. nra.
    + apply rnd_nonpos. unfold Rdiv. nra.
  - pose proof (Rinv_lt_0_compat r Hr) as Hir.
    pose proof (Rinv_0_lt_compat w Hw) as Hiw.
    assert (H0 : rnd (s / r) <= 0) by (apply rnd_nonpos; unfold Rdiv; nra).
    assert (H1 : rnd (s' / r) <= rnd (s / r))
      by (apply rnd_monotone; unfold Rdiv; nra).
    split.
    + apply rnd_monotone. unfold Rdiv. nra.
    + apply rnd_nonpos. unfold Rdiv. nra.
Qed.

(** No fault on a non-negative voltage when the two divisors are not
    zero. *)
Lemma guarded_fl_returns self U :
  0 <= U -> radius self <> 0 -> winding self <> 0 ->
  Ic_fl_guarded self U = inr (Ic_fl self U).
Proof.
  intros HU Hr Hw. rewrite guarded_fl_cases.
  destruct (Req_dec_T e 0) as [He | _]; [exfalso; lra|].
  destruct (Rlt_dec (radicand U) 0) as [Hq | _];
    [exfalso; pose proof (radicand_fl_nonneg U HU); lra|].
  destruct (Req_dec_T (radius self) 0); [contradiction|].
  destruct (Req_dec_T (winding self) 0); [contradiction | reflexivity].
Qed.

(** The signs of the computed divisors under a sign of n * (Ra - Rk). *)
Lemma divisor_signs self :
  radius self <> 0 -> winding self <> 0 ->
  (0 < n self * (Ra self - Rk self) ->
     (0 < radius self /\ 0 < winding self) \/ (radius self < 0 /\ winding self < 0))
  /\ (n self * (Ra self - Rk self) < 0 ->
     (0 < radius self /\ winding self < 0) \/ (radius self < 0 /\ 0 < winding self)).
Proof.
  intros Hr Hw.
  destruct (radius_fl_sign self) as [Hrp Hrn].
  destruct (winding_fl_sign self) as [Hwp Hwn].
  split; intros Hprod.
  - destruct (Rlt_le_dec 0 (n self)) as [Hn | Hn].
    + left. assert (Rk self <= Ra self) by nra.
      split; [specialize (Hrp ltac:(assumption)) | specialize (Hwp ltac:(lra))]; lra.
    + right. assert (Ra self <= Rk self) by nra.
      split; [specialize (Hrn ltac:(assumption)) | specialize (Hwn ltac:(assumption))]; lra.
  - destruct (Rlt_le_dec 0 (n self)) as [Hn | Hn].
    + right. assert (Ra self <= Rk self) by nra.
      split; [specialize (Hrn ltac:(assumption)) | specialize (Hwp ltac:(lra))]; lra.
    + left. assert (Rk self <= Ra self) by nra.
      split; [specialize (Hrp ltac:(assumption)) | specialize (Hwn ltac:(assumption))]; lra.
Qed.

End RoundedCurrent.

Section RoundedCurrentFacts.

Variable rnd : R -> R.
Variables e m_e mu_0 : R.

Hypothesis rnd_monotone : forall x y : R, x <= y -> rnd x <= rnd y.
Hypothesis rnd_zero : rnd 0 = 0.

Local Notation "'Ic_fl'" := (calculate_solenoid_current_fl rnd e m_e mu_0).
Local Notation "'Ic_fl_guarded'" := (calculate_solenoid_current_fl_guarded rnd e m_e mu_0).
Local Notation "'radius'" := (radius_fl rnd).
Local Notation "'radicand'" := (radicand_fl rnd e m_e).
Local Notation "'winding'" := (winding_fl rnd mu_0).


(** At zero voltage the current is zero, whenever neither computed
    divisor is zero. *)
Theorem rounded_zero_voltage (self : MagnetronSolver) :
  e <> 0 -> radius self <> 0 -> winding self <> 0 ->
  Ic_fl_guarded self 0 = inr 0.
Proof.
  intros He Hr Hw.
  assert (Hq : radicand 0 = 0).
  { unfold radicand_fl, fl_div, fl_mul.
    rewrite Rmult_0_r, rnd_zero, Rmult_0_l, rnd_zero.
    replace (0 / e) with 0 by (unfold Rdiv; ring). apply rnd_zero. }
  rewrite guarded_fl_cases.
  destruct (Req_dec_T e 0) as [|_]; [contradiction|].
  destruct (Rlt_dec (radicand 0) 0) as [Hlt | _]; [exfalso; lra|].
  destruct (Req_dec_T (radius self) 0); [contradiction|].
  destruct (Req_dec_T (winding self) 0); [contradiction|].
  f_equal. rewrite current_fl_unfold, Hq, sqrt_0, rnd_zero.
  replace (0 / radius self) with 0 by (unfold Rdiv; ring). rewrite rnd_zero.
  replace (0 / winding self) with 0 by (unfold Rdiv; ring). apply rnd_zero.
Qed.

Hypothesis e_pos : 0 < e.
Hypothesis m_e_pos : 0 < m_e.
Hypothesis mu_0_pos : 0 < mu_0.

(** C7, amended. Equal radii make the computed orbit radius zero, and
    the division of the root by it is then a division by zero.  The
    guarded evaluation stops at that division exactly when the radicand
    is not negative and the computed radius is zero (for U >= 0:
    exactly when the computed radius is zero), and never when the
    computed radius is not zero.  Unequal radii do not exclude a zero
    radius: the halved difference can round to zero. *)
Theorem rounded_radius_zero_division (self : MagnetronSolver) (U : R) :
  (Ra self = Rk self -> radius self = 0)
  /\ (Ic_fl_guarded self U = inl (DivideByZero orbit_radius)
      <-> (0 <= radicand U /\ radius self = 0))
  /\ (0 <= U ->
      (Ic_fl_guarded self U = inl (DivideByZero orbit_radius) <-> radius self = 0))
  /\ (radius self <> 0 -> Ic_fl_guarded self U <> inl (DivideByZero orbit_radius)).
Proof.
  assert (Hiff : Ic_fl_guarded self U = inl (DivideByZero orbit_radius)
                 <-> (0 <= radicand U /\ radius self = 0)).
  { rewrite guarded_fl_cases.
    destruct (Req_dec_T e 0) as [He | _]; [exfalso; lra|].
    destruct (Rlt_dec (radicand U) 0) as [Hq | Hq].
    - split; [discriminate | intros (H0 & _); lra].
    - destruct (Req_dec_T (radius self) 0) as [Hr | Hr].
      + split; [intros _; split; [lra | exact Hr] | reflexivity].
      + split; [|intros (_ & H0); contradiction].
        destruct (Req_dec_T (winding self) 0); discriminate. }
  split; [apply radius_fl_equal_radii; assumption|].
  split; [exact Hiff|]. split.
  - intros HU. rewrite Hiff.
    pose proof (radicand_fl_nonneg rnd e m_e rnd_monotone rnd_zero e_pos m_e_pos U HU).
    tauto.
  - intros Hne Hstop. apply Hiff in Hstop. tauto.
Qed.

(** C3, amended. For a configuration with n * (Ra - Rk) > 0 whose
    computed radius and winding product are not zero, and for positive
    constants, the evaluation returns at every voltage U >= 0, the
    current is not negative, and it does not decrease when the voltage
    grows: 0 <= Ic(U) <= Ic(U') for 0 <= U <= U'. *)
Theorem rounded_current_nonnegative_nondecreasing (self : MagnetronSolver) (U U' : R) :
  0 < n self * (Ra self - Rk self) ->
  radius self <> 0 -> winding self <> 0 ->
  0 <= U -> U <= U' ->
  Ic_fl_guarded self U = inr (Ic_fl self U)
  /\ Ic_fl_guarded self U' = inr (Ic_fl self U')
  /\ 0 <= Ic_fl self U <= Ic_fl self U'.
Proof.
  intros Hprod Hr Hw HU HUU'.
  split; [apply guarded_fl_returns; assumption|].
  split; [apply guarded_fl_returns; try assumption; lra|].
  rewrite !current_fl_unfold.
  apply (quotient_fl_same_sign rnd rnd_monotone rnd_zero).
  - apply (divisor_signs rnd mu_0 rnd_monotone rnd_zero mu_0_pos self Hr Hw), Hprod.
  - apply rnd_nonneg; [assumption | assumption | apply sqrt_pos].
  - apply rnd_monotone, sqrt_le_1_alt.
    apply (radicand_fl_monotone rnd e m_e rnd_monotone e_pos m_e_pos), HUU'.
Qed.

(** With n * (Ra - Rk) < 0 the order is the opposite one: the current
    is not positive and does not grow with the voltage. *)
Theorem rounded_current_nonpositive_nonincreasing (self : MagnetronSolver) (U U' : R) :
  n self * (Ra self - Rk self) < 0 ->
  radius self <> 0 -> winding self <> 0 ->
  0 <= U -> U <= U' ->
  Ic_fl_guarded self U = inr (Ic_fl self U)
  /\ Ic_fl_guarded self U' = inr (Ic_fl self U')
  /\ Ic_fl self U' <= Ic_fl self U <= 0.
Proof.
  intros Hprod Hr Hw HU HUU'.
  split; [apply guarded_fl_returns; assumption|].
  split; [apply guarded_fl_returns; try assumption; lra|].
  rewrite !current_fl_unfold.
  apply (quotient_fl_opposite_sign rnd rnd_monotone rnd_zero).
  - apply (divisor_signs rnd mu_0 rnd_monotone rnd_zero mu_0_pos self Hr Hw), Hprod.
  - apply rnd_nonneg; [assumption | assumption | apply sqrt_pos].
  - apply rnd_monotone, sqrt_le_1_alt.
    apply (radicand_fl_monotone rnd e m_e rnd_monotone e_pos m_e_pos), HUU'.
Qed.

End RoundedCurrentFacts.

Section RoundedSymmetry.

Variable rnd : R -> R.
Variables e m_e mu_0 : R.

Local Notation "'Ic_fl'" := (calculate_solenoid_current_fl rnd e m_e mu_0).
Local Notation "'Ic_fl_guarded'" := (calculate_solenoid_current_fl_guarded rnd e m_e mu_0).
Local Notation "'radius'" := (radius_fl rnd).
Local Notation "'radicand'" := (radicand_fl rnd e m_e).
Local Notation "'winding'" := (winding_fl rnd mu_0).

(** Where the guarded evaluation returns, it returns the plain value
    and no guard has fired. *)
Lemma guarded_fl_value self U v :
  Ic_fl_guarded self U = inr v ->
  v = Ic_fl self U /\ e <> 0 /\ ~ radicand U < 0
  /\ radius self <> 0 /\ winding self <> 0.
Proof.
  rewrite guarded_fl_cases.
  destruct (Req_dec_T e 0); [discriminate|].
  destruct (Rlt_dec (radicand U) 0); [discriminate|].
  destruct (Req_dec_T (radius self) 0); [discriminate|].
  destruct (Req_dec_T (winding self) 0); [discriminate|].
  intros H. injection H as <-. repeat split; assumption.
Qed.

Lemma guarded_fl_value_back self U :
  e <> 0 -> ~ radicand U < 0 -> radius self <> 0 -> winding self <> 0 ->
  Ic_fl_guarded self U = inr (Ic_fl self U).
Proof.
  intros He Hq Hr Hw. rewrite guarded_fl_cases.
  destruct (Req_dec_T e 0); [contradiction|].
  destruct (Rlt_dec (radicand U) 0); [contradiction|].
  destruct (Req_dec_T (radius self) 0); [contradiction|].
  destruct (Req_dec_T (winding self) 0); [contradiction | reflexivity].
Qed.

Section Opposite.

(** Rounding to nearest is symmetric about zero. *)
Hypothesis rnd_opp : forall x : R, rnd (- x) = - rnd x.

Lemma rnd_zero_of_opp : rnd 0 = 0.
Proof.
  pose proof (rnd_opp 0) as H. rewrite Ropp_0 in H. lra.
Qed.

Lemma radius_fl_swap self : radius (swap_radii self) = - radius self.
Proof.
  unfold radius_fl, fl_div, fl_sub, swap_radii. cbn [Ra Rk].
  replace (Rk self - Ra self) with (- (Ra self - Rk self)) by ring.
  rewrite rnd_opp.
  replace (- rnd (Ra self - Rk self) / 2) with (- (rnd (Ra self - Rk self) / 2))
    by (unfold Rdiv; ring).
  apply rnd_opp.
Qed.

Lemma winding_fl_negated self :
  winding (with_winding self (- n self)) = - winding self.
Proof.
  unfold winding_fl, fl_mul, with_winding. cbn [n].
  replace (mu_0 * - n self) with (- (mu_0 * n self)) by ring. apply rnd_opp.
Qed.

Lemma quotient_fl_negated_radius s r w :
  rnd (rnd (s / - r) / w) = - rnd (rnd (s / r) / w).
Proof.
  replace (s / - r) with (- (s / r)) by (unfold Rdiv; rewrite Rinv_opp; ring).
  rewrite rnd_opp.
  replace (- rnd (s / r) / w) with (- (rnd (s / r) / w)) by (unfold Rdiv; ring).
  apply rnd_opp.
Qed.

Lemma quotient_fl_negated_winding s r w :
  rnd (rnd (s / r) / - w) = - rnd (rnd (s / r) / w).
Proof.
  replace (rnd (s / r) / - w) with (- (rnd (s / r) / w))
    by (unfold Rdiv; rewrite Rinv_opp; ring).
  apply rnd_opp.
Qed.

(** The current reads only Ra, Rk and n of the configuration, and
    changes only its sign when the two radii are exchanged or when n is
    negated: where the evaluation returns v, it returns v on every
    configuration with the same Ra, Rk and n, and - v after either
    change. *)
Theorem rounded_sign_symmetry (self self' : MagnetronSolver) (U v : R) :
  Ic_fl_guarded self U = inr v ->
  (Ra self' = Ra self -> Rk self' = Rk self -> n self' = n self ->
     Ic_fl_guarded self' U = inr v)
  /\ Ic_fl_guarded (swap_radii self) U = inr (- v)
  /\ Ic_fl_guarded (with_winding self (- n self)) U = inr (- v).
Proof.
  intros Hv. destruct (guarded_fl_value self U v Hv) as (-> & He & Hq & Hr & Hw).
  split; [|split].
  - intros HRa HRk Hn.
    unfold calculate_solenoid_current_fl_guarded, calculate_solenoid_current_fl in *.
    rewrite HRa, HRk, Hn. exact Hv.
  - rewrite guarded_fl_value_back; try assumption.
    + f_equal. rewrite !current_fl_unfold, radius_fl_swap.
      unfold winding_fl, swap_radii. cbn [n].
      apply quotient_fl_negated_radius.
    + rewrite radius_fl_swap. lra.
  - rewrite guarded_fl_value_back; try assumption.
    + f_equal. rewrite !current_fl_unfold, winding_fl_negated.
      unfold radius_fl, with_winding. cbn [Ra Rk].
      apply quotient_fl_negated_winding.
    + rewrite winding_fl_negated. lra.
Qed.

End Opposite.

Section Doubling.

Lemma rnd_quadruple_at x :
  rnd (2 * x) = 2 * rnd x -> rnd (2 * (2 * x)) = 2 * rnd (2 * x) ->
  rnd (4 * x) = 4 * rnd x.
Proof.
  intros H1 H2. replace (4 * x) with (2 * (2 * x)) by ring. rewrite H2, H1. ring.
Qed.

Lemma sqrt_quadruple q : sqrt (4 * q) = 2 * sqrt q.
Proof.
  rewrite sqrt_mult_alt by lra.
  replace 4 with (2 * 2) by ring. rewrite sqrt_square by lra. reflexivity.
Qed.

(** Four times the voltage doubles the current, exactly, as long as
    doubling commutes with rounding at the values the evaluation
    rounds (in binary64: as long as none of them, doubled, leaves the
    normal range): where the evaluation returns v at U, it returns
    2 * v at 4 * U. *)
Theorem rounded_quadruple_voltage (self : MagnetronSolver) (U v : R) :
  Forall (fun x => rnd (2 * x) = 2 * rnd x) (doubled_values rnd e m_e mu_0 self U) ->
  Ic_fl_guarded self U = inr v ->
  Ic_fl_guarded self (4 * U) = inr (2 * v).
Proof.
  intros Hdbl Hv. destruct (guarded_fl_value self U v Hv) as (-> & He & Hq & Hr & Hw).
  unfold doubled_values in Hdbl. cbv zeta in Hdbl.
  repeat match goal with
         | H : Forall _ (_ :: _) |- _ =>
             let H1 := fresh "Hd" in
             let H2 := fresh "Hrest" in
             inversion H as [|? ? H1 H2]; subst; clear H; rename H2 into Hdbl
         end.
  assert (Hradicand : radicand (4 * U) = 4 * radicand U).
  { unfold radicand_fl, fl_div, fl_mul.
    replace (2 * (4 * U)) with (4 * (2 * U)) by ring.
    rewrite (rnd_quadruple_at (2 * U)) by assumption.
    replace (4 * rnd (2 * U) * m_e) with (4 * (rnd (2 * U) * m_e)) by ring.
    rewrite (rnd_quadruple_at (rnd (2 * U) * m_e)) by assumption.
    replace (4 * rnd (rnd (2 * U) * m_e) / e) with (4 * (rnd (rnd (2 * U) * m_e) / e))
      by (unfold Rdiv; ring).
    apply rnd_quadruple_at; assumption. }
  rewrite guarded_fl_value_back; try assumption.
  - f_equal. rewrite !current_fl_unfold, Hradicand, sqrt_quadruple.
    unfold radicand_fl, fl_div, fl_mul, radius_fl, winding_fl in *.
    match goal with H : rnd (2 * sqrt _) = _ |- _ => rewrite H end.
    match goal with
    | |- rnd (rnd (2 * ?s / ?r) / ?w) = _ =>
        replace (2 * s / r) with (2 * (s / r)) by (unfold Rdiv; ring)
    end.
    match goal with H : rnd (2 * (rnd (sqrt _) / _)) = _ |- _ => rewrite H end.
    match goal with
    | |- rnd (2 * ?q / ?w) = _ =>
        replace (2 * q / w) with (2 * (q / w)) by (unfold Rdiv; ring)
    end.
    match goal with H : rnd (2 * (rnd (rnd (sqrt _) / _) / _)) = _ |- _ => exact H end.
  - rewrite Hradicand. lra.
Qed.

End Doubling.

End RoundedSymmetry.

(** ** The rounded trajectory generator *)

Lemma abs_le_bounds a b : Rabs a <= b -> - b <= a <= b.
Proof.
  unfold Rabs. destruct (Rcase_abs a); intros H; lra.
Qed.

Lemma abs_sin_le_abs x : Rabs (sin x) <= Rabs x.
Proof.
  assert (Hpos : forall y, 0 < y -> Rabs (sin y) <= y).
  { intros y Hy. pose proof (sin_lt_x y Hy) as Hlt.
    apply Rabs_le. split; [|lra].
    destruct (Rlt_le_dec y 1) as [Hy1 | Hy1].
    - pose proof PI_RGT_0. pose proof PI2_1.
      assert (0 < sin y) by (apply sin_gt_0; lra). lra.
    - pose proof (SIN_bound y). lra. }
  destruct (Rtotal_order x 0) as [Hneg | [-> | Hgt]].
  - assert (Hy : 0 < - x) by lra.
    pose proof (Hpos (- x) Hy) as H. rewrite sin_neg, Rabs_Ropp in H.
    rewrite (Rabs_left x Hneg). exact H.
  - rewrite sin_0, Rabs_R0. lra.
  - rewrite (Rabs_pos_eq x) by lra. apply Hpos, Hgt.
Qed.

Lemma one_minus_cos_le_abs x : Rabs (cos x - 1) <= Rabs x.
Proof.
  replace x with (2 * (x / 2)) at 1 by lra. rewrite cos_2a_sin.
  pose proof (abs_sin_le_abs (x / 2)) as Hs.
  pose proof (SIN_bound (x / 2)) as Hb.
  replace (Rabs (x / 2)) with (Rabs x / 2) in Hs
    by (unfold Rdiv; rewrite Rabs_mult, (Rabs_pos_eq (/ 2)); lra).
  set (s := sin (x / 2)) in *.
  assert (Hs2 : s * s <= Rabs s).
  { unfold Rabs. destruct (Rcase_abs s); nra. }
  apply Rabs_le. split; nra.
Qed.

Lemma angle_from_full_turn t :
  Rabs (cos t - 1) <= Rabs (t - 2 * PI) /\ Rabs (sin t) <= Rabs (t - 2 * PI).
Proof.
  assert (Hc : cos t = cos (t - 2 * PI))
    by (rewrite cos_minus, cos_2PI, sin_2PI; ring).
  assert (Hs : sin t = sin (t - 2 * PI))
    by (rewrite sin_minus, cos_2PI, sin_2PI; ring).
  rewrite Hc, Hs. split; [apply one_minus_cos_le_abs | apply abs_sin_le_abs].
Qed.

(** A point within [E] of (rho * c, rho * s) on both axes, with
    c^2 + s^2 = 1, is within 4|rho|E + 2E^2 of the circle equation. *)
Lemma near_circle rho c s x y E :
  c * c + s * s = 1 ->
  Rabs (x - rho * c) <= E -> Rabs (y - rho * s) <= E ->
  Rabs (x² + y² - rho²) <= 4 * Rabs rho * E + 2 * E².
Proof.
  intros Hcs Hx Hy.
  set (dx := x - rho * c) in *. set (dy := y - rho * s) in *.
  assert (HE : 0 <= E) by (pose proof (Rabs_pos dx); lra).
  apply abs_le_bounds in Hx. apply abs_le_bounds in Hy.
  assert (Hc1 : -1 <= c <= 1) by (split; nra).
  assert (Hs1 : -1 <= s <= 1) by (split; nra).
  assert (Hcdx : - E <= c * dx <= E) by (split; nra).
  assert (Hsdy : - E <= s * dy <= E) by (split; nra).
  assert (Hrho : 0 <= Rabs rho) by apply Rabs_pos.
  assert (Hm : - (2 * E * Rabs rho) <= rho * (c * dx + s * dy) <= 2 * E * Rabs rho).
  { unfold Rabs in *. destruct (Rcase_abs rho); split; nra. }
  assert (Hsq : 0 <= dx * dx <= E * E /\ 0 <= dy * dy <= E * E) by (repeat split; nra).
  replace (x² + y² - rho²)
    with (2 * (rho * (c * dx + s * dy)) + dx * dx + dy * dy)
    by (unfold dx, dy, Rsqr; replace (rho * rho) with (rho * rho * (c * c + s * s))
          by (rewrite Hcs; ring); ring).
  unfold Rsqr. apply Rabs_le. split; nra.
Qed.

Section RoundedTrajectory.

Variable rnd : R -> R.
Variables np_cos np_sin : R -> R.
Variable np_pi : R.
Variable mu_0 : R.

Local Notation "'trajectory_fl'" := (electron_trajectory_fl rnd np_cos np_sin np_pi mu_0).
Local Notation "'points_fl'" := (trajectory_points_fl rnd np_cos np_sin np_pi mu_0).
Local Notation "'scale'" := (scale_fl rnd).
Local Notation "'point'" := (point_fl rnd np_cos np_sin).

Lemma linspace_fl_length start stop num :
  length (linspace_fl rnd start stop num) = num.
Proof.
  destruct num as [|[|div]]; try reflexivity.
  unfold linspace_fl. rewrite length_app, length_map, length_seq. cbn [length]. lia.
Qed.

Lemma linspace_fl_last start stop num :
  (2 <= num)%nat -> nth_error (linspace_fl rnd start stop num) (num - 1) = Some stop.
Proof.
  intros Hnum. destruct num as [|[|div]]; [lia | lia |].
  unfold linspace_fl.
  rewrite nth_error_app2; rewrite length_map, length_seq; [|lia].
  replace (S (S div) - 1 - S div)%nat with 0%nat by lia. reflexivity.
Qed.

Lemma points_fl_as_map self U Ic num_points :
  points_fl self U Ic num_points
  = map (point self) (linspace_fl rnd 0 (fl_mul rnd 2 np_pi) num_points).
Proof.
  unfold trajectory_points_fl, electron_trajectory_fl. apply combine_map_map.
Qed.

(** The sequences are read off Ra, Rk and the count alone: two
    configurations with the same two radii give the same sequences for
    the same count, whatever their D, n, U1 and U2, whatever mu_0, and
    whatever voltage and current are passed. *)
Theorem rounded_trajectory_reads_radii (self self' : MagnetronSolver)
    (mu_0' U Ic U' Ic' : R) (num_points : nat) :
  Ra self' = Ra self -> Rk self' = Rk self ->
  electron_trajectory_fl rnd np_cos np_sin np_pi mu_0' self' U' Ic' num_points
  = trajectory_fl self U Ic num_points.
Proof.
  intros HRa HRk. unfold electron_trajectory_fl. cbv zeta.
  rewrite HRa, HRk. reflexivity.
Qed.

Hypothesis rnd_zero : rnd 0 = 0.

Lemma linspace_fl_first start stop num :
  rnd start = start -> (1 <= num)%nat ->
  nth_error (linspace_fl rnd start stop num) 0 = Some start.
Proof.
  intros Hstart Hnum. destruct num as [|[|div]]; [lia | |].
  - unfold linspace_fl, fl_add, fl_mul. cbn [nth_error].
    rewrite Rmult_0_l, rnd_zero, Rplus_0_l, Hstart. reflexivity.
  - unfold linspace_fl. cbn [seq map app nth_error]. f_equal.
    change (INR 0) with 0. unfold fl_add, fl_mul, fl_div, fl_sub.
    set (d := INR (S div)).
    destruct (Req_dec_T (rnd (rnd (stop - start) / d)) 0).
    + replace (0 / d) with 0 by (unfold Rdiv; ring).
      rewrite rnd_zero, Rmult_0_l, rnd_zero, Rplus_0_l. exact Hstart.
    + rewrite Rmult_0_l, rnd_zero, Rplus_0_l. exact Hstart.
Qed.

(** Rounding leaves a rounded number as it is. *)
Hypothesis rnd_idempotent : forall x : R, rnd (rnd x) = rnd x.

(** Cosine and sine at the angle zero. *)
Hypothesis np_cos_0 : np_cos 0 = 1.
Hypothesis np_sin_0 : np_sin 0 = 0.

Lemma point_fl_start self : point self 0 = (scale self, 0).
Proof.
  unfold point_fl, fl_mul. rewrite np_cos_0, np_sin_0, Rmult_1_r, Rmult_0_r, rnd_zero.
  f_equal. unfold scale_fl, fl_add. apply rnd_idempotent.
Qed.

(** The small counts: no pair for a count of 0; for every count of at
    least 1 the first pair is (scale, 0), the scale being the computed
    Rk + (Ra - Rk)/2. *)
Theorem rounded_trajectory_start (self : MagnetronSolver) (U Ic : R) :
  trajectory_fl self U Ic 0 = ([], [])
  /\ (forall num_points : nat, (1 <= num_points)%nat ->
        nth_error (points_fl self U Ic num_points) 0 = Some (scale self, 0)
        /\ length (points_fl self U Ic num_points) = num_points).
Proof.
  split; [reflexivity|].
  intros num_points Hnum. rewrite points_fl_as_map, nth_error_map, length_map.
  rewrite linspace_fl_first by (assumption || exact rnd_zero).
  cbn [option_map]. rewrite point_fl_start, linspace_fl_length. split; reflexivity.
Qed.

End RoundedTrajectory.

Lemma abs_bounds x : - Rabs x <= x <= Rabs x.
Proof.
  unfold Rabs. destruct (Rcase_abs x); lra.
Qed.

Section RoundedTrajectoryError.

Variable rnd : R -> R.
Variables np_cos np_sin : R -> R.
Variable np_pi : R.
Variable mu_0 : R.
Variables u eta u_t d_pi : R.

Local Notation "'points_fl'" := (trajectory_points_fl rnd np_cos np_sin np_pi mu_0).
Local Notation "'scale'" := (scale_fl rnd).
Local Notation "'point'" := (point_fl rnd np_cos np_sin).

(** A rounding is off by at most the relative error [u] of the value
    plus the absolute error [eta]. *)
Hypothesis u_nonneg : 0 <= u.
Hypothesis rnd_error : forall x : R, Rabs (rnd x - x) <= u * Rabs x + eta.

Lemma rounded_product_near rho c c0 d :
  Rabs (c - c0) <= d -> Rabs c0 <= 1 ->
  Rabs (rnd (rho * c) - rho * c0) <= Rabs rho * (d + u * (1 + d)) + eta.
Proof.
  intros Hc Hc0.
  pose proof (rnd_error (rho * c)) as Hr. rewrite Rabs_mult in Hr.
  pose proof (Rabs_pos rho) as Hrho.
  assert (Hd : 0 <= d) by (pose proof (Rabs_pos (c - c0)); lra).
  assert (Habs_c : Rabs c <= 1 + d).
  { replace c with (c0 + (c - c0)) by ring.
    pose proof (Rabs_triang c0 (c - c0)). lra. }
  assert (Hprod : u * (Rabs rho * Rabs c) <= u * (Rabs rho * (1 + d))).
  { apply Rmult_le_compat_l; [exact u_nonneg|].
    apply Rmult_le_compat_l; assumption. }
  assert (Hshift : Rabs (rho * c - rho * c0) <= Rabs rho * d).
  { replace (rho * c - rho * c0) with (rho * (c - c0)) by ring.
    rewrite Rabs_mult. apply Rmult_le_compat_l; assumption. }
  replace (rnd (rho * c) - rho * c0)
    with ((rnd (rho * c) - rho * c) + (rho * c - rho * c0)) by ring.
  pose proof (Rabs_triang (rnd (rho * c) - rho * c) (rho * c - rho * c0)). lra.
Qed.

(** The computed scale against the exact midpoint of the radii. *)
Lemma scale_fl_near_midpoint self :
  Rabs (scale self - (Ra self + Rk self) / 2) <= midpoint_tolerance u eta self.
Proof.
  unfold midpoint_tolerance, scale_fl, fl_add, fl_div, fl_sub. cbv zeta.
  set (a := Ra self - Rk self). set (A := Rabs a).
  set (d := rnd a). set (h := rnd (d / 2)).
  set (e1 := u * A + eta). set (e2 := u * ((A + e1) / 2) + eta).
  assert (HA : 0 <= A) by apply Rabs_pos.
  pose proof (abs_bounds a) as Ha. fold A in Ha.
  pose proof (abs_le_bounds _ _ (rnd_error a)) as H1. fold d A e1 in H1.
  assert (Heta : 0 <= eta).
  { pose proof (rnd_error 0) as H0. rewrite Rabs_R0 in H0.
    pose proof (Rabs_pos (rnd 0 - 0)). lra. }
  assert (He1 : 0 <= e1) by (unfold e1; nra).
  assert (HD : Rabs (d / 2) <= (A + e1) / 2) by (apply Rabs_le; lra).
  assert (H2 : Rabs (h - d / 2) <= e2).
  { pose proof (rnd_error (d / 2)) as Hh. fold h in Hh.
    assert (u * Rabs (d / 2) <= u * ((A + e1) / 2))
      by (apply Rmult_le_compat_l; assumption).
    unfold e2. lra. }
  apply abs_le_bounds in H2.
  set (mid := (Ra self + Rk self) / 2). set (M := Rabs mid).
  pose proof (abs_bounds mid) as Hmid. fold M in Hmid.
  assert (Hgap : - (e2 + e1 / 2) <= Rk self + h - mid <= e2 + e1 / 2)
    by (unfold mid, a in *; lra).
  assert (Hsum : Rabs (Rk self + h) <= M + (e2 + e1 / 2)) by (apply Rabs_le; lra).
  pose proof (rnd_error (Rk self + h)) as H3.
  assert (u * Rabs (Rk self + h) <= u * (M + (e2 + e1 / 2)))
    by (apply Rmult_le_compat_l; assumption).
  apply abs_le_bounds in H3.
  apply Rabs_le. lra.
Qed.

(** Cosine and sine are off by at most [u_t]. *)
Hypothesis np_cos_error : forall t : R, Rabs (np_cos t - cos t) <= u_t.
Hypothesis np_sin_error : forall t : R, Rabs (np_sin t - sin t) <= u_t.

Lemma point_fl_near self t :
  Rabs (fst (point self t) - scale self * cos t)
    <= coordinate_tolerance u eta u_t (scale self)
  /\ Rabs (snd (point self t) - scale self * sin t)
    <= coordinate_tolerance u eta u_t (scale self).
Proof.
  unfold point_fl, coordinate_tolerance, fl_mul. cbn [fst snd].
  pose proof (COS_bound t) as Hc. pose proof (SIN_bound t) as Hs.
  split; apply rounded_product_near;
    solve [apply np_cos_error | apply np_sin_error | apply Rabs_le; lra].
Qed.

Hypothesis rnd_monotone : forall x y : R, x <= y -> rnd x <= rnd y.
Hypothesis rnd_zero : rnd 0 = 0.

Lemma scale_fl_at_least_cathode self :
  rnd (Rk self) = Rk self -> Rk self <= Ra self -> Rk self <= scale self.
Proof.
  intros Hrep Hle. unfold scale_fl, fl_add. rewrite <- Hrep at 1.
  apply rnd_monotone.
  destruct (radius_fl_sign rnd rnd_monotone rnd_zero self) as [Hpos _].
  specialize (Hpos Hle). unfold radius_fl in Hpos. lra.
Qed.

(** C10, amended. Every generated pair satisfies x^2 + y^2 = s^2 up to
    rounding, s being the computed scale Rk + (Ra - Rk)/2: the two
    sides differ by at most 4|s|E + 2E^2, where E is the coordinate
    tolerance.  The scale is within the midpoint tolerance of
    (Ra + Rk)/2, and not below Rk when Rk is a float and Rk <= Ra.
    Equality, and a distance strictly between Rk and Ra, are not
    guaranteed. *)
Theorem rounded_trajectory_near_circle (self : MagnetronSolver) (U Ic : R) (num_points : nat) :
  Forall (fun p => Rabs ((fst p)² + (snd p)² - (scale self)²)
                   <= 4 * Rabs (scale self) * coordinate_tolerance u eta u_t (scale self)
                      + 2 * (coordinate_tolerance u eta u_t (scale self))²)
         (points_fl self U Ic num_points)
  /\ Rabs (scale self - (Ra self + Rk self) / 2) <= midpoint_tolerance u eta self
  /\ (rnd (Rk self) = Rk self -> Rk self <= Ra self -> Rk self <= scale self).
Proof.
  split; [|split].
  - rewrite points_fl_as_map. apply Forall_map, Forall_forall. intros t _.
    destruct (point_fl_near self t) as [Hx Hy].
    apply (near_circle (scale self) (cos t) (sin t)); try assumption.
    pose proof (sin2_cos2 t) as H. unfold Rsqr in H. lra.
  - apply scale_fl_near_midpoint.
  - apply scale_fl_at_least_cathode.
Qed.

(** Rounding leaves a rounded number as it is; cosine and sine are
    exact at the angle zero; the last angle, the rounded 2 * np_pi, is
    within [d_pi] of a full turn. *)
Hypothesis rnd_idempotent : forall x : R, rnd (rnd x) = rnd x.
Hypothesis np_cos_0 : np_cos 0 = 1.
Hypothesis np_sin_0 : np_sin 0 = 0.
Hypothesis last_angle_error : Rabs (fl_mul rnd 2 np_pi - 2 * PI) <= d_pi.

Lemma last_point_near_start self :
  Rabs (fst (point self (fl_mul rnd 2 np_pi)) - scale self)
    <= endpoint_tolerance u eta u_t d_pi (scale self)
  /\ Rabs (snd (point self (fl_mul rnd 2 np_pi)) - 0)
    <= endpoint_tolerance u eta u_t d_pi (scale self).
Proof.
  set (tau := fl_mul rnd 2 np_pi).
  destruct (angle_from_full_turn tau) as [Hc Hs].
  pose proof (np_cos_error tau) as Hce. pose proof (np_sin_error tau) as Hse.
  fold tau in last_angle_error.
  unfold point_fl, endpoint_tolerance, fl_mul. cbn [fst snd]. fold tau. split.
  - replace (rnd (scale self * np_cos tau) - scale self)
      with (rnd (scale self * np_cos tau) - scale self * 1) by ring.
    apply rounded_product_near.
    + replace (np_cos tau - 1) with ((np_cos tau - cos tau) + (cos tau - 1)) by ring.
      pose proof (Rabs_triang (np_cos tau - cos tau) (cos tau - 1)). lra.
    + rewrite Rabs_R1. lra.
  - replace (rnd (scale self * np_sin tau) - 0)
      with (rnd (scale self * np_sin tau) - scale self * 0) by ring.
    apply rounded_product_near.
    + replace (np_sin tau - 0) with ((np_sin tau - sin tau) + sin tau) by ring.
      pose proof (Rabs_triang (np_sin tau - sin tau) (sin tau)). lra.
    + rewrite Rabs_R0. lra.
Qed.

(** C6, amended. With at least two points the first pair is the sample
    at the angle 0, which is (s, 0) for the computed scale s, and the
    last pair is the sample at the rounded angle 2 * np_pi.  The two
    are equal when cosine and sine return 1 and 0 at that angle, and in
    any case equal up to rounding: each coordinate of the last pair is
    within the endpoint tolerance of that of the first. *)
Theorem rounded_trajectory_endpoints_close (self : MagnetronSolver) (U Ic : R)
    (num_points : nat) :
  (2 <= num_points)%nat ->
  exists first last : R * R,
    nth_error (points_fl self U Ic num_points) 0 = Some first
    /\ nth_error (points_fl self U Ic num_points) (num_points - 1) = Some last
    /\ first = (scale self, 0)
    /\ last = point self (fl_mul rnd 2 np_pi)
    /\ Rabs (fst last - fst first) <= endpoint_tolerance u eta u_t d_pi (scale self)
    /\ Rabs (snd last - snd first) <= endpoint_tolerance u eta u_t d_pi (scale self)
    /\ (np_cos (fl_mul rnd 2 np_pi) = 1 -> np_sin (fl_mul rnd 2 np_pi) = 0 ->
        last = first).
Proof.
  intros Hnum.
  exists (scale self, 0), (point self (fl_mul rnd 2 np_pi)).
  rewrite points_fl_as_map, !nth_error_map.
  rewrite (linspace_fl_first rnd rnd_zero) by (exact rnd_zero || lia).
  rewrite linspace_fl_last by exact Hnum.
  cbn [option_map fst snd].
  rewrite (point_fl_start rnd np_cos np_sin rnd_zero rnd_idempotent np_cos_0 np_sin_0).
  destruct (last_point_near_start self) as [Hx Hy].
  repeat split; try assumption.
  intros Hc Hs. unfold point_fl. rewrite Hc, Hs. unfold fl_mul.
  rewrite Rmult_1_r, Rmult_0_r, rnd_zero.
  f_equal. unfold scale_fl, fl_add. apply rnd_idempotent.
Qed.

End RoundedTrajectoryError.

(** ** What binary64 does to the exact statements *)

Section Binary64Counterexamples.

Import Float64 Float64Trajectory.
Local Open Scope float_scope.

(** C3 as stated fails on the binary64 evaluation.  The current is not
    strictly positive and strictly increasing over all configurations
    and positive voltages: with the radii exchanged it is negative at
    550 V; on the entry point's configuration it is the same at 550 V
    and at the next double above 550; and at 1e-300 V it is zero. *)
Lemma binary64_current_not_strict :
  ~ (forall (self : solver64) (U U' : float),
       PrimFloat.ltb 0 U = true -> PrimFloat.ltb U U' = true ->
       PrimFloat.ltb 0 (calculate_solenoid_current_f64 self U) = true
       /\ PrimFloat.ltb (calculate_solenoid_current_f64 self U)
                        (calculate_solenoid_current_f64 self U') = true)
  /\ PrimFloat.ltb (calculate_solenoid_current_f64 swapped_solver64 550) 0 = true
  /\ (PrimFloat.ltb 550 (next_up 550) = true
      /\ calculate_solenoid_current_f64 example_solver64 (next_up 550)
         = calculate_solenoid_current_f64 example_solver64 550)
  /\ (PrimFloat.ltb 0 1e-300 = true
      /\ calculate_solenoid_current_f64 example_solver64 1e-300 = 0).
Proof.
  split; [|repeat split; vm_compute; reflexivity].
  intros H.
  destruct (H example_solver64 550 (next_up 550)) as [_ Hlt];
    [vm_compute; reflexivity | vm_compute; reflexivity |].
  vm_compute in Hlt. discriminate.
Qed.

(** C7 as stated fails on the binary64 evaluation: with Ra the
    smallest positive double and Rk = 0 the radii differ, yet the
    halved difference is zero and the current is infinite. *)
Lemma binary64_zero_radius_with_unequal_radii :
  PrimFloat.eqb (Ra64 tiny_gap_solver64) (Rk64 tiny_gap_solver64) = false
  /\ (Ra64 tiny_gap_solver64 - Rk64 tiny_gap_solver64) / 2 = 0
  /\ calculate_solenoid_current_f64 tiny_gap_solver64 550 = infinity.
Proof.
  repeat split; vm_compute; reflexivity.
Qed.

(** C10 as stated fails on the binary64 evaluation.  On the entry
    point's configuration the first pair is (0.019999999999999997, 0),
    and as numbers x^2 + y^2 is not ((Ra + Rk)/2)^2.  With Rk = 1 and Ra
    the next double above 1, so that 0 < Rk < Ra, the first pair is
    (1, 0), on the cathode circle and not strictly outside it. *)
Lemma binary64_first_pair_off_circle :
  first_pair_f64 example_solver64 = (0.019999999999999997, 0)
  /\ ~ ((F2Q (fst (first_pair_f64 example_solver64))) ^ 2
          + (F2Q (snd (first_pair_f64 example_solver64))) ^ 2
        == ((F2Q (Ra64 example_solver64) + F2Q (Rk64 example_solver64)) / 2) ^ 2)%Q
  /\ (PrimFloat.ltb 0 (Rk64 thin_gap_solver64) = true
      /\ PrimFloat.ltb (Rk64 thin_gap_solver64) (Ra64 thin_gap_solver64) = true
      /\ first_pair_f64 thin_gap_solver64 = (1, 0)
      /\ ((F2Q (fst (first_pair_f64 thin_gap_solver64))) ^ 2
            + (F2Q (snd (first_pair_f64 thin_gap_solver64))) ^ 2
          == (F2Q (Rk64 thin_gap_solver64)) ^ 2)%Q).
Proof.
  split; [vm_compute; reflexivity|]. split.
  - intros H. apply Qeq_bool_iff in H. vm_compute in H. discriminate.
  - repeat split; try (vm_compute; reflexivity).
Qed.

End Binary64Counterexamples.

(** ** The double np.pi against pi *)

Lemma Q2R_qpow q k : Q2R (qpow q k) = (Q2R q) ^ k.
Proof.
  induction k as [|k IH]; cbn [qpow pow].
  - unfold Q2R. cbn. lra.
  - rewrite Q2R_mult, IH. reflexivity.
Qed.

Lemma Q2R_of_nat m : Q2R (inject_Z (Z.of_nat m)) = INR m.
Proof.
  unfold Q2R, inject_Z. cbn [Qnum Qden]. rewrite INR_IZR_INZ. lra.
Qed.

Lemma machin_term_R i : Q2R (machin_term i) = tg_alt PI_2_3_7_tg i.
Proof.
  assert (Hodd : ~ (inject_Z (Z.of_nat (2 * i + 1)) == 0)%Q).
  { unfold Qeq, inject_Z. cbn [Qnum Qden]. lia. }
  unfold machin_term, tg_alt, PI_2_3_7_tg, Ratan_seq.
  rewrite Q2R_mult, Q2R_plus, Q2R_mult, !Q2R_div by exact Hodd.
  rewrite !Q2R_qpow, Q2R_of_nat.
  replace (Q2R (-1)) with (-1) by (unfold Q2R; cbn; lra).
  replace (Q2R 2) with 2 by (unfold Q2R; cbn; lra).
  replace (Q2R (1 # 3)) with (/ 3) by (unfold Q2R; cbn; lra).
  replace (Q2R (1 # 7)) with (/ 7) by (unfold Q2R; cbn; lra).
  reflexivity.
Qed.

Lemma machin_sum_R k : Q2R (machin_sum k) = sum_f_R0 (tg_alt PI_2_3_7_tg) k.
Proof.
  induction k as [|k IH]; cbn [machin_sum sum_f_R0].
  - apply machin_term_R.
  - rewrite Q2R_plus, IH, machin_term_R. reflexivity.
Qed.

Lemma machin_lower_bound : Q2R (4 * machin_sum 17) <= PI.
Proof.
  rewrite Q2R_mult, machin_sum_R.
  replace (Q2R 4) with 4 by (unfold Q2R; cbn; lra).
  pose proof (PI_2_3_7_ineq 8) as [Hlow _].
  change (S (2 * 8)) with 17%nat in Hlow. lra.
Qed.

(** The double [np.pi] is a little less than pi. *)
Lemma np_pi_below_pi : 3 < np_pi_value < PI.
Proof.
  unfold np_pi_value, F2R. split.
  - replace 3 with (Q2R 3) by (unfold Q2R; cbn; lra).
    apply Qlt_Rlt. vm_compute. reflexivity.
  - apply Rlt_le_trans with (2 := machin_lower_bound).
    apply Qlt_Rlt. vm_compute. reflexivity.
Qed.

Lemma sin_double_np_pi : sin (2 * np_pi_value) < 0.
Proof.
  destruct np_pi_below_pi as [Hlow Hup]. pose proof PI_4 as H4.
  assert (Hpos : 0 < sin (2 * PI - 2 * np_pi_value)) by (apply sin_gt_0; lra).
  rewrite sin_minus, sin_2PI, cos_2PI in Hpos. lra.
Qed.

(** C6 as stated fails once np.pi is the double: with every operation
    exact and with the exact cosine and sine, the angle 2 * np.pi of the
    last sample is short of a full turn, so on the entry point's
    configuration with the default 1000 points the last pair lies below
    the first, (0.02, 0). *)
Lemma double_pi_endpoints_differ :
  exists first last : R * R,
    nth_error (trajectory_points_fl (fun x => x) cos sin np_pi_value
                 CODATA2018.mu_0 example_solver 550 1 1000) 0 = Some first
    /\ nth_error (trajectory_points_fl (fun x => x) cos sin np_pi_value
                    CODATA2018.mu_0 example_solver 550 1 1000) (1000 - 1) = Some last
    /\ snd first = 0
    /\ snd last < 0
    /\ first <> last.
Proof.
  exists (point_fl (fun x => x) cos sin example_solver 0),
         (point_fl (fun x => x) cos sin example_solver (2 * np_pi_value)).
  rewrite points_fl_as_map, !nth_error_map.
  rewrite linspace_fl_first by (reflexivity || lia).
  rewrite linspace_fl_last by lia.
  cbn [option_map]. unfold fl_mul.
  assert (Hfirst : snd (point_fl (fun x => x) cos sin example_solver 0) = 0).
  { unfold point_fl, fl_mul. cbn [snd]. rewrite sin_0. ring. }
  assert (Hlast : snd (point_fl (fun x => x) cos sin example_solver (2 * np_pi_value)) < 0).
  { unfold point_fl, fl_mul, scale_fl, fl_add, fl_div, fl_sub. cbn [snd Ra Rk example_solver].
    pose proof sin_double_np_pi. nra. }
  repeat split; try assumption.
  intros Heq. rewrite <- Heq in Hlast. lra.
Qed.

(** ** The rounded facts at the closed instances

    The instance in which nothing is rounded: [rnd] the identity, the
    exact cosine and sine. *)

Lemma exact_monotone : forall x y : R, x <= y -> (fun z : R => z) x <= (fun z : R => z) y.
Proof. intros x y H. exact H. Qed.

Lemma exact_error : forall x : R, Rabs ((fun z : R => z) x - x) <= 0 * Rabs x + 0.
Proof. intros x. rewrite Rminus_diag, Rabs_R0. lra. Qed.

Lemma exact_cos_error : forall t : R, Rabs (cos t - cos t) <= 0.
Proof. intros t. rewrite Rminus_diag, Rabs_R0. lra. Qed.

Lemma exact_sin_error : forall t : R, Rabs (sin t - sin t) <= 0.
Proof. intros t. rewrite Rminus_diag, Rabs_R0. lra. Qed.

Lemma example_radius_exact : radius_fl (fun z : R => z) example_solver <> 0.
Proof. unfold radius_fl, fl_div, fl_sub. cbn. lra. Qed.

Lemma example_winding_exact :
  winding_fl (fun z : R => z) CODATA2018.mu_0 example_solver <> 0.
Proof. unfold winding_fl, fl_mul, CODATA2018.mu_0. cbn. lra. Qed.

Lemma swapped_radius_exact : radius_fl (fun z : R => z) swapped_solver <> 0.
Proof. unfold radius_fl, fl_div, fl_sub. cbn. lra. Qed.

Lemma swapped_winding_exact :
  winding_fl (fun z : R => z) CODATA2018.mu_0 swapped_solver <> 0.
Proof. unfold winding_fl, fl_mul, CODATA2018.mu_0. cbn. lra. Qed.

Lemma example_guarded_exact U :
  0 <= U ->
  calculate_solenoid_current_fl_guarded (fun z : R => z)
    CODATA2018.e CODATA2018.m_e CODATA2018.mu_0 example_solver U
  = inr (calculate_solenoid_current_fl (fun z : R => z)
           CODATA2018.e CODATA2018.m_e CODATA2018.mu_0 example_solver U).
Proof.
  intros HU. destruct codata_positive as (He & Hm & Hmu).
  apply guarded_fl_returns; try assumption.
  - exact exact_monotone.
  - reflexivity.
  - exact example_radius_exact.
  - exact example_winding_exact.
Qed.

Lemma rounded_current_nonnegative_nondecreasing_witness :
  0 <= calculate_solenoid_current_fl (fun z : R => z)
         CODATA2018.e CODATA2018.m_e CODATA2018.mu_0 example_solver 550
    <= calculate_solenoid_current_fl (fun z : R => z)
         CODATA2018.e CODATA2018.m_e CODATA2018.mu_0 example_solver 1000.
Proof.
  destruct codata_positive as (He & Hm & Hmu).
  apply (rounded_current_nonnegative_nondecreasing (fun z : R => z)
           CODATA2018.e CODATA2018.m_e CODATA2018.mu_0
           exact_monotone eq_refl He Hm Hmu example_solver 550 1000).
  - cbn. lra.
  - exact example_radius_exact.
  - exact example_winding_exact.
  - lra.
  - lra.
Defined.

Lemma rounded_current_nonpositive_nonincreasing_witness :
  calculate_solenoid_current_fl (fun z : R => z)
    CODATA2018.e CODATA2018.m_e CODATA2018.mu_0 swapped_solver 1000
  <= calculate_solenoid_current_fl (fun z : R => z)
       CODATA2018.e CODATA2018.m_e CODATA2018.mu_0 swapped_solver 550
  <= 0.
Proof.
  destruct codata_positive as (He & Hm & Hmu).
  apply (rounded_current_nonpositive_nonincreasing (fun z : R => z)
           CODATA2018.e CODATA2018.m_e CODATA2018.mu_0
           exact_monotone eq_refl He Hm Hmu swapped_solver 550 1000).
  - cbn. lra.
  - exact swapped_radius_exact.
  - exact swapped_winding_exact.
  - lra.
  - lra.
Defined.

Lemma rounded_radius_zero_division_witness :
  calculate_solenoid_current_fl_guarded (fun z : R => z)
    CODATA2018.e CODATA2018.m_e CODATA2018.mu_0 equal_radii_solver 550
  = inl (DivideByZero orbit_radius).
Proof.
  destruct codata_positive as (He & Hm & _).
  destruct (rounded_radius_zero_division (fun z : R => z)
              CODATA2018.e CODATA2018.m_e CODATA2018.mu_0
              exact_monotone eq_refl He Hm equal_radii_solver 550)
    as (Hzero & _ & Hiff & _).
  apply Hiff; [lra|]. apply Hzero. reflexivity.
Defined.


Lemma rounded_zero_voltage_witness :
  calculate_solenoid_current_fl_guarded (fun z : R => z)
    CODATA2018.e CODATA2018.m_e CODATA2018.mu_0 example_solver 0 = inr 0.
Proof.
  assert (He : CODATA2018.e <> 0) by (unfold CODATA2018.e; lra).
  apply (rounded_zero_voltage (fun z : R => z)
           CODATA2018.e CODATA2018.m_e CODATA2018.mu_0 eq_refl example_solver He).
  - exact example_radius_exact.
  - exact example_winding_exact.
Defined.

Lemma rounded_sign_symmetry_witness :
  calculate_solenoid_current_fl_guarded (fun z : R => z)
    CODATA2018.e CODATA2018.m_e CODATA2018.mu_0 (swap_radii example_solver) 550
  = inr (- calculate_solenoid_current_fl (fun z : R => z)
             CODATA2018.e CODATA2018.m_e CODATA2018.mu_0 example_solver 550).
Proof.
  apply (rounded_sign_symmetry (fun z : R => z)
           CODATA2018.e CODATA2018.m_e CODATA2018.mu_0 (fun x => eq_refl)
           example_solver example_solver 550 _ (example_guarded_exact 550 ltac:(lra))).
Defined.

Lemma rounded_quadruple_voltage_witness :
  calculate_solenoid_current_fl_guarded (fun z : R => z)
    CODATA2018.e CODATA2018.m_e CODATA2018.mu_0 example_solver (4 * 550)
  = inr (2 * calculate_solenoid_current_fl (fun z : R => z)
               CODATA2018.e CODATA2018.m_e CODATA2018.mu_0 example_solver 550).
Proof.
  apply (rounded_quadruple_voltage (fun z : R => z)
           CODATA2018.e CODATA2018.m_e CODATA2018.mu_0 example_solver 550).
  - unfold doubled_values. repeat constructor.
  - apply example_guarded_exact. lra.
Defined.

Lemma rounded_trajectory_reads_radii_witness :
  electron_trajectory_fl (fun z : R => z) cos sin np_pi_value 1
    doubled_winding_solver 100 2 1000
  = electron_trajectory_fl (fun z : R => z) cos sin np_pi_value CODATA2018.mu_0
      example_solver 550 1 1000.
Proof.
  apply (rounded_trajectory_reads_radii (fun z : R => z) cos sin np_pi_value
           CODATA2018.mu_0 example_solver doubled_winding_solver);
    reflexivity.
Defined.

Lemma rounded_trajectory_start_witness :
  nth_error (trajectory_points_fl (fun z : R => z) cos sin np_pi_value
               CODATA2018.mu_0 example_solver 550 1 1000) 0
  = Some (scale_fl (fun z : R => z) example_solver, 0).
Proof.
  apply (proj2 (rounded_trajectory_start (fun z : R => z) cos sin np_pi_value
                  CODATA2018.mu_0 eq_refl (fun x => eq_refl) cos_0 sin_0
                  example_solver 550 1) 1000%nat).
  lia.
Defined.

Lemma rounded_trajectory_near_circle_witness :
  Rk example_solver <= scale_fl (fun z : R => z) example_solver.
Proof.
  apply (proj2 (proj2 (rounded_trajectory_near_circle (fun z : R => z) cos sin
                         np_pi_value CODATA2018.mu_0 0 0 0
                         ltac:(lra) exact_error exact_cos_error exact_sin_error
                         exact_monotone eq_refl example_solver 550 1 1000))).
  - reflexivity.
  - cbn. lra.
Defined.

Lemma double_pi_angle_error : Rabs (fl_mul (fun z : R => z) 2 np_pi_value - 2 * PI) <= 2.
Proof.
  unfold fl_mul. destruct np_pi_below_pi as [Hlow Hup]. pose proof PI_4.
  apply Rabs_le. lra.
Qed.

Lemma rounded_trajectory_endpoints_close_witness :
  exists first last : R * R,
    nth_error (trajectory_points_fl (fun z : R => z) cos sin np_pi_value
                 CODATA2018.mu_0 example_solver 550 1 1000) 0 = Some first
    /\ nth_error (trajectory_points_fl (fun z : R => z) cos sin np_pi_value
                    CODATA2018.mu_0 example_solver 550 1 1000) (1000 - 1) = Some last
    /\ Rabs (snd last - snd first)
       <= endpoint_tolerance 0 0 0 2 (scale_fl (fun z : R => z) example_solver).
Proof.
  destruct (rounded_trajectory_endpoints_close (fun z : R => z) cos sin
              np_pi_value CODATA2018.mu_0 0 0 0 2
              ltac:(lra) exact_error exact_cos_error exact_sin_error
              eq_refl (fun x => eq_refl) cos_0 sin_0 double_pi_angle_error
              example_solver 550 1 1000 ltac:(lia))
    as (first & last & H0 & H1 & _ & _ & _ & Hy & _).
  exists first, last. repeat split; assumption.
Defined.
